(** Shallow embedding of the limit order book of lob-rs
    ([src/src/engine/mod.rs]; [src/src/main.rs] holds an identical copy of
    the engine and a benchmark driver).

    - [f64] prices: the engine does no arithmetic on prices, it only compares
      them, with the raw IEEE comparisons [>] / [<] on [f64] in the crossing
      tests and with the total order of [OrderedFloat] for the keys of the
      [BTreeMap]s.  Non-NaN values are therefore represented, up to order
      isomorphism, by integers ([Num z]); [NaN] is kept as its own value.
    - [u64] quantities are [N]; the subtraction [-=] is checked (a Rust
      underflow panics), so it is modelled as returning [None] on underflow.
    - a [BTreeMap<OrderedFloat<f64>, VecDeque<Order>>] is the association
      list of its entries in increasing key order; a [VecDeque] is a list,
      front first.
    - a panic ([unwrap] on [None], underflow) is an explicit outcome. *)

From Stdlib Require Import List ZArith NArith Lia Bool Sorting.Sorted.
Import ListNotations.
Open Scope Z_scope.

(** * Prices: [f64] and [OrderedFloat<f64>] *)

Inductive f64 : Set :=
| Num (z : Z)
| NaN.

(** The raw [f64] comparison [a > b]: false as soon as one side is NaN. *)
Definition f64_gt (a b : f64) : bool :=
  match a, b with
  | Num x, Num y => y <? x
  | _, _ => false
  end.

(** The raw [f64] comparison [a < b]. *)
Definition f64_lt (a b : f64) : bool := f64_gt b a.

(** The raw [f64] comparisons [a <= b] and [a >= b]. *)
Definition f64_le (a b : f64) : bool :=
  match a, b with
  | Num x, Num y => x <=? y
  | _, _ => false
  end.

Definition f64_ge (a b : f64) : bool := f64_le b a.

(** [Ord for OrderedFloat<f64>]: NaN is equal to itself and greater than
    every other value. *)
Definition of_cmp (a b : f64) : comparison :=
  match a, b with
  | Num x, Num y => Z.compare x y
  | Num _, NaN => Lt
  | NaN, Num _ => Gt
  | NaN, NaN => Eq
  end.

Definition of_lt (a b : f64) : Prop := of_cmp a b = Lt.

(** * Orders and the book *)

Inductive Side : Set := Buy | Sell.

Record Order : Set := mkOrder {
  _id : N;
  price : f64;
  quantity : N;
  side : Side
}.

Definition set_quantity (o : Order) (q : N) : Order :=
  mkOrder (_id o) (price o) q (side o).

(** [BTreeMap<OrderedFloat<f64>, VecDeque<Order>>]. *)
Definition Map : Set := list (f64 * list Order).

Record OrderBook : Set := mkBook {
  bids : Map;
  asks : Map
}.

(** [OrderBook::new]. *)
Definition new_book : OrderBook := mkBook [] [].

(** A trade of the matching loop: the values printed by the commented-out
    [println!] of the loop (price of the level, [trade_qty]) together with
    the resting (maker) and incoming (taker) order ids.  The engine computes
    these values but does not return them. *)
Record Trade : Set := mkTrade {
  tr_price : f64;
  tr_qty : N;
  maker_order_id : N;
  taker_order_id : N
}.

(** [u64 -= u64] with the overflow check: [None] is the underflow panic. *)
Definition u64_sub (a b : N) : option N :=
  if (b <=? a)%N then Some (a - b)%N else None.

(** [self.bids.entry(k).or_default().push_back(o)]: append [o] at the back
    of the level of key [k], creating the level if absent (the existing key
    is kept when one compares equal). *)
Fixpoint entry_push_back (m : Map) (k : f64) (o : Order) : Map :=
  match m with
  | [] => [(k, [o])]
  | (k', q) :: rest =>
      match of_cmp k k' with
      | Lt => (k, [o]) :: m
      | Eq => (k', q ++ [o]) :: rest
      | Gt => (k', q) :: entry_push_back rest k o
      end
  end.

(** [BTreeMap::last_entry]: the entries before the last one, and the last. *)
Fixpoint last_entry (m : Map) : option (Map * (f64 * list Order)) :=
  match m with
  | [] => None
  | [e] => Some ([], e)
  | e :: m' =>
      match last_entry m' with
      | Some (pre, l) => Some (e :: pre, l)
      | None => None
      end
  end.

(** * One iteration of the [while] loops *)

Inductive Iter : Set :=
| Break
| Continue (m : Map) (order : Order) (t : Trade)
| Panic.

(** The body of the loop of [match_bid], on the ask side [asks] (the loop
    condition [order.quantity > 0] is tested by the caller). *)
Definition match_bid_iter (asks : Map) (order : Order) : Iter :=
  match asks with
  | [] => Break                                         (* No sellers *)
  | (best_ask_price, ask_queue) :: rest =>              (* first_entry *)
      if f64_gt best_ask_price (price order) then Break
      else
        match ask_queue with
        | [] => Panic                                   (* front_mut().unwrap() *)
        | best_ask_order :: tl =>
            let trade_qty := N.min (quantity order) (quantity best_ask_order) in
            match u64_sub (quantity order) trade_qty,
                  u64_sub (quantity best_ask_order) trade_qty with
            | Some oq, Some bq =>
                let ask_queue' :=
                  if (bq =? 0)%N then tl                (* pop_front *)
                  else set_quantity best_ask_order bq :: tl in
                let asks' :=
                  match ask_queue' with
                  | [] => rest                          (* entry.remove() *)
                  | _ => (best_ask_price, ask_queue') :: rest
                  end in
                Continue asks' (set_quantity order oq)
                  (mkTrade best_ask_price trade_qty (_id best_ask_order) (_id order))
            | _, _ => Panic
            end
        end
  end.

(** The body of the loop of [match_ask], on the bid side [bids]. *)
Definition match_ask_iter (bids : Map) (order : Order) : Iter :=
  match last_entry bids with
  | None => Break                                       (* No buyers *)
  | Some (pre, (best_bid_price, bid_queue)) =>
      if f64_lt best_bid_price (price order) then Break
      else
        match bid_queue with
        | [] => Panic                                   (* front_mut().unwrap() *)
        | best_bid_order :: tl =>
            let trade_qty := N.min (quantity order) (quantity best_bid_order) in
            match u64_sub (quantity order) trade_qty,
                  u64_sub (quantity best_bid_order) trade_qty with
            | Some oq, Some bq =>
                let bid_queue' :=
                  if (bq =? 0)%N then tl                (* pop_front *)
                  else set_quantity best_bid_order bq :: tl in
                let bids' :=
                  match bid_queue' with
                  | [] => pre                           (* entry.remove() *)
                  | _ => pre ++ [(best_bid_price, bid_queue')]
                  end in
                Continue bids' (set_quantity order oq)
                  (mkTrade best_bid_price trade_qty (_id best_bid_order) (_id order))
            | _, _ => Panic
            end
        end
  end.

(** * The loops *)

(** Result of a [while order.quantity > 0] loop run with [fuel] iterations
    at most: the final opposite side, the final incoming order and the
    trades executed, in execution order. *)
Inductive LoopRes : Set :=
| Done (m : Map) (order : Order) (trades : list Trade)
| Panicked
| OutOfFuel.

Fixpoint match_bid_loop (fuel : nat) (asks : Map) (order : Order) : LoopRes :=
  match fuel with
  | O => OutOfFuel
  | S fuel' =>
      if (0 <? quantity order)%N then
        match match_bid_iter asks order with
        | Break => Done asks order []
        | Panic => Panicked
        | Continue asks' order' t =>
            match match_bid_loop fuel' asks' order' with
            | Done m o ts => Done m o (t :: ts)
            | r => r
            end
        end
      else Done asks order []
  end.

Fixpoint match_ask_loop (fuel : nat) (bids : Map) (order : Order) : LoopRes :=
  match fuel with
  | O => OutOfFuel
  | S fuel' =>
      if (0 <? quantity order)%N then
        match match_ask_iter bids order with
        | Break => Done bids order []
        | Panic => Panicked
        | Continue bids' order' t =>
            match match_ask_loop fuel' bids' order' with
            | Done m o ts => Done m o (t :: ts)
            | r => r
            end
        end
      else Done bids order []
  end.

(** Number of resting orders of one side. *)
Definition count_orders (m : Map) : nat :=
  fold_right (fun e acc => (length (snd e) + acc)%nat) O m.

(** Every iteration decreases [order.quantity + count_orders m]; this many
    iterations always suffice (lemma [match_bid_loop_enough_fuel]). *)
Definition loop_fuel (m : Map) (order : Order) : nat :=
  S (N.to_nat (quantity order) + count_orders m).

(** Outcome of a call of [add_order]: the book after the call together
    with the trades executed, or a panic.  [Diverged] stands for the loop
    not having finished within [loop_fuel] iterations (never the case). *)
Inductive Outcome : Set :=
| Completed (b : OrderBook) (trades : list Trade)
| Panicked_
| Diverged.

(** [OrderBook::match_bid]. *)
Definition match_bid (b : OrderBook) (order : Order) : Outcome :=
  match match_bid_loop (loop_fuel (asks b) order) (asks b) order with
  | Done asks' order' trades =>
      let bids' :=
        if (0 <? quantity order')%N
        then entry_push_back (bids b) (price order') order'
        else bids b in
      Completed (mkBook bids' asks') trades
  | Panicked => Panicked_
  | OutOfFuel => Diverged
  end.

(** [OrderBook::match_ask]. *)
Definition match_ask (b : OrderBook) (order : Order) : Outcome :=
  match match_ask_loop (loop_fuel (bids b) order) (bids b) order with
  | Done bids' order' trades =>
      let asks' :=
        if (0 <? quantity order')%N
        then entry_push_back (asks b) (price order') order'
        else asks b in
      Completed (mkBook bids' asks') trades
  | Panicked => Panicked_
  | OutOfFuel => Diverged
  end.

(** [OrderBook::add_order]: dispatch on the side.  The Rust function
    returns [()]; the trades of [Completed] are the instrumentation above. *)
Definition add_order (b : OrderBook) (order : Order) : Outcome :=
  match side order with
  | Buy => match_bid b order
  | Sell => match_ask b order
  end.

(** What the Rust [add_order] returns to its caller: [()] (or a panic). *)
Definition add_order_ret (b : OrderBook) (order : Order) : option unit :=
  match add_order b order with
  | Completed _ _ => Some tt
  | _ => None
  end.

(** * Observations used by the statements *)

(** Best bid: the last (highest) key of the bid side. *)
Definition best_bid (b : OrderBook) : option f64 :=
  match last_entry (bids b) with
  | Some (_, (k, _)) => Some k
  | None => None
  end.

(** Best ask: the first (lowest) key of the ask side. *)
Definition best_ask (b : OrderBook) : option f64 :=
  match asks b with
  | (k, _) :: _ => Some k
  | [] => None
  end.

(** The queue of the level of key [k] ([[]] when there is none). *)
Fixpoint level_of (m : Map) (k : f64) : list Order :=
  match m with
  | [] => []
  | (k', q) :: rest =>
      match of_cmp k k' with
      | Eq => q
      | _ => level_of rest k
      end
  end.

Definition is_trade (i : Iter) : bool :=
  match i with
  | Continue _ _ _ => true
  | _ => false
  end.

Definition queue_total (q : list Order) : N :=
  fold_right (fun o acc => (quantity o + acc)%N) 0%N q.

(** Total quantity resting on one side. *)
Definition side_total (m : Map) : N :=
  fold_right (fun e acc => (queue_total (snd e) + acc)%N) 0%N m.

Definition traded_total (ts : list Trade) : N :=
  fold_right (fun t acc => (tr_qty t + acc)%N) 0%N ts.

(** Identity and price of an order, the fields a trade reports. *)
Definition idp (o : Order) : N * f64 := (_id o, price o).

Definition side_orders (m : Map) : list Order := flat_map snd m.

(** The side an incoming order is matched against. *)
Definition opposite_side (b : OrderBook) (o : Order) : Map :=
  match side o with
  | Buy => asks b
  | Sell => bids b
  end.

(** The side an incoming order rests on when it is not fully filled. *)
Definition own_side (b : OrderBook) (o : Order) : Map :=
  match side o with
  | Buy => bids b
  | Sell => asks b
  end.

(** The order is valid in the sense of the spec: [price > 0] (as an [f64]
    comparison) and [quantity > 0]. *)
Definition valid_order (o : Order) : Prop :=
  f64_gt (price o) (Num 0) = true /\ (0 < quantity o)%N.

(** Books reachable from [OrderBook::new] by [add_order] calls with orders
    satisfying [P]. *)
Inductive reachable (P : Order -> Prop) : OrderBook -> Prop :=
| reach_new : reachable P new_book
| reach_add b o b' ts :
    reachable P b -> P o -> add_order b o = Completed b' ts -> reachable P b'.

(** * Invariants *)

Definition keys (m : Map) : list f64 := map fst m.

Definition sorted_keys (m : Map) : Prop :=
  StronglySorted (fun e1 e2 => of_lt (fst e1) (fst e2)) m.

Definition levels_nonempty (m : Map) : Prop := Forall (fun e => snd e <> []) m.

Definition resting_pos (m : Map) : Prop :=
  Forall (fun e => Forall (fun o => (0 < quantity o)%N) (snd e)) m.

Definition order_ok (k : f64) (o : Order) : Prop :=
  (0 < quantity o)%N /\ price o = k.

Definition level_ok (e : f64 * list Order) : Prop :=
  snd e <> [] /\ Forall (order_ok (fst e)) (snd e).

Definition side_ok (m : Map) : Prop := sorted_keys m /\ Forall level_ok m.

Definition separated (b : OrderBook) : Prop :=
  forall kb ka, In kb (keys (bids b)) -> In ka (keys (asks b)) -> of_lt kb ka.

Definition book_ok (b : OrderBook) : Prop :=
  side_ok (bids b) /\ side_ok (asks b) /\ separated b.

(** Every key of the book is a price [> 0]. *)
Definition keys_valid (b : OrderBook) : Prop :=
  Forall (fun k => f64_gt k (Num 0) = true) (keys (bids b) ++ keys (asks b)).

Definition bid_stopped (m : Map) (p : f64) : Prop :=
  match m with
  | [] => True
  | (k, _) :: _ => f64_gt k p = true
  end.

Definition ask_stopped (m : Map) (p : f64) : Prop :=
  match last_entry m with
  | None => True
  | Some (_, (k, _)) => f64_lt k p = true
  end.

(** Resting orders of the bid side in the order [match_ask] meets them:
    highest level first, front of each queue first.  (For the ask side,
    [side_orders] already lists them in the order [match_bid] meets them.) *)
Definition bid_priority (m : Map) : list Order := flat_map snd (rev m).

(** What a trade reports about its maker: id, execution price, quantity. *)
Definition fill (t : Trade) : N * f64 * N :=
  (maker_order_id t, tr_price t, tr_qty t).

(** The same triple for a resting order that is taken in full. *)
Definition full_fill (o : Order) : N * f64 * N := (_id o, price o, quantity o).

(** The resting orders [after] and the trades [ts] are what is left of, and
    what was taken from, the resting orders [before] (in priority order):
    a prefix [filled] of them is taken in full, and at most one more order
    [x] is taken in part, keeping [q] of its quantity. *)
Definition consumed (before after : list Order) (ts : list Trade) : Prop :=
  exists filled rest,
    before = filled ++ rest /\
    ((map fill ts = map full_fill filled /\ after = rest) \/
     (exists x r q,
        rest = x :: r /\ (0 < q < quantity x)%N /\
        map fill ts = map full_fill filled ++ [(_id x, price x, quantity x - q)%N] /\
        after = set_quantity x q :: r)).

(** * The driver of [main] *)




(** * Basic facts *)

Lemma of_lt_trans a b c : of_lt a b -> of_lt b c -> of_lt a c.
Proof.
  unfold of_lt; destruct a, b, c; simpl; try discriminate; auto.
  rewrite !Z.compare_lt_iff; lia.
Qed.

Lemma of_lt_irrefl a : ~ of_lt a a.
Proof.
  unfold of_lt; destruct a; simpl; [rewrite Z.compare_refl|]; discriminate.
Qed.

Lemma of_cmp_refl a : of_cmp a a = Eq.
Proof. destruct a; simpl; [apply Z.compare_refl | reflexivity]. Qed.

Lemma of_cmp_eq a b : of_cmp a b = Eq -> a = b.
Proof.
  destruct a, b; simpl; try discriminate; auto.
  intros H; apply Z.compare_eq in H; subst; reflexivity.
Qed.

Lemma of_cmp_gt a b : of_cmp a b = Gt -> of_lt b a.
Proof.
  unfold of_lt; destruct a, b; simpl; try discriminate; auto.
  rewrite Z.compare_gt_iff, Z.compare_lt_iff; lia.
Qed.

Lemma f64_gt_of_lt a b : f64_gt a b = true -> of_lt b a.
Proof.
  unfold of_lt; destruct a, b; simpl; try discriminate.
  rewrite Z.ltb_lt, Z.compare_lt_iff; lia.
Qed.

Lemma last_entry_app pre e : last_entry (pre ++ [e]) = Some (pre, e).
Proof.
  induction pre as [|a pre IH]; [reflexivity|].
  simpl; rewrite IH; destruct pre; reflexivity.
Qed.

Lemma last_entry_some m pre e : last_entry m = Some (pre, e) -> m = pre ++ [e].
Proof.
  revert pre; induction m as [|a m IH]; intros pre; [discriminate|].
  destruct m as [|a' m'].
  - simpl; intros H; injection H; intros; subst; reflexivity.
  - change (last_entry (a :: a' :: m')) with
      (match last_entry (a' :: m') with
       | Some (p, l) => Some (a :: p, l) | None => None end).
    remember (last_entry (a' :: m')) as r eqn:E.
    destruct r as [[p l]|]; [|discriminate].
    intros H; injection H; intros; subst.
    rewrite (IH p eq_refl); reflexivity.
Qed.

Lemma last_entry_none m : last_entry m = None -> m = [].
Proof.
  destruct m as [|a m]; [reflexivity|]; intros H.
  destruct (exists_last (l := a :: m) ltac:(discriminate)) as [pre [e He]].
  rewrite He, last_entry_app in H; discriminate.
Qed.

Lemma u64_sub_min_l a b : u64_sub a (N.min a b) = Some (a - N.min a b)%N.
Proof.
  unfold u64_sub; rewrite (proj2 (N.leb_le _ _) (N.le_min_l a b)); reflexivity.
Qed.

Lemma u64_sub_min_r a b : u64_sub b (N.min a b) = Some (b - N.min a b)%N.
Proof.
  unfold u64_sub; rewrite (proj2 (N.leb_le _ _) (N.le_min_r a b)); reflexivity.
Qed.

(** * Shape of one iteration *)

(** The new front of a level after its front order [best] traded
    [trade_qty]: [pop_front] when it is exhausted, otherwise reduced. *)
Lemma match_bid_iter_continue asks o asks' o' t :
  match_bid_iter asks o = Continue asks' o' t ->
  exists k best tl rest,
    asks = (k, best :: tl) :: rest /\
    f64_gt k (price o) = false /\
    tr_price t = k /\
    tr_qty t = N.min (quantity o) (quantity best) /\
    maker_order_id t = _id best /\ taker_order_id t = _id o /\
    o' = set_quantity o (quantity o - tr_qty t) /\
    let q' := if (quantity best - tr_qty t =? 0)%N then tl
              else set_quantity best (quantity best - tr_qty t) :: tl in
    asks' = match q' with
            | [] => rest
            | _ => (k, q') :: rest
            end.
Proof.
  unfold match_bid_iter.
  destruct asks as [|[k q] rest]; [discriminate|].
  destruct (f64_gt k (price o)) eqn:Hgt; [discriminate|].
  destruct q as [|best tl]; [discriminate|].
  rewrite u64_sub_min_l, u64_sub_min_r.
  intros H; injection H; intros; subst.
  exists k, best, tl, rest; repeat split; auto.
Qed.

Lemma match_ask_iter_continue bids o bids' o' t :
  match_ask_iter bids o = Continue bids' o' t ->
  exists pre k best tl,
    bids = pre ++ [(k, best :: tl)] /\
    f64_lt k (price o) = false /\
    tr_price t = k /\
    tr_qty t = N.min (quantity o) (quantity best) /\
    maker_order_id t = _id best /\ taker_order_id t = _id o /\
    o' = set_quantity o (quantity o - tr_qty t) /\
    let q' := if (quantity best - tr_qty t =? 0)%N then tl
              else set_quantity best (quantity best - tr_qty t) :: tl in
    bids' = match q' with
            | [] => pre
            | _ => pre ++ [(k, q')]
            end.
Proof.
  unfold match_ask_iter.
  destruct (last_entry bids) as [[pre [k q]]|] eqn:Hl; [|discriminate].
  apply last_entry_some in Hl.
  destruct (f64_lt k (price o)) eqn:Hlt; [discriminate|].
  destruct q as [|best tl]; [discriminate|].
  rewrite u64_sub_min_l, u64_sub_min_r.
  intros H; injection H; intros; subst.
  exists pre, k, best, tl; repeat split; auto.
Qed.

(** * Sortedness of the key lists *)

Lemma sorted_keys_cons_inv e m :
  sorted_keys (e :: m) -> sorted_keys m /\ Forall (fun x => of_lt (fst e) (fst x)) m.
Proof. intros H; inversion H; subst; auto. Qed.

Lemma sorted_keys_app_last_inv pre e :
  sorted_keys (pre ++ [e]) ->
  sorted_keys pre /\ Forall (fun x => of_lt (fst x) (fst e)) pre.
Proof.
  induction pre as [|a pre IH]; intros H; [split; constructor|].
  simpl in H; apply sorted_keys_cons_inv in H as [Hs Hf].
  destruct (IH Hs) as [Hs' Hf'].
  apply Forall_app in Hf as [Hf1 Hf2].
  split; [constructor; auto|].
  constructor; auto.
  inversion Hf2; auto.
Qed.

Lemma sorted_keys_app_last pre e :
  sorted_keys pre -> Forall (fun x => of_lt (fst x) (fst e)) pre ->
  sorted_keys (pre ++ [e]).
Proof.
  induction pre as [|a pre IH]; intros Hs Hf.
  - repeat constructor.
  - apply sorted_keys_cons_inv in Hs as [Hs Ha].
    inversion Hf; subst.
    simpl; constructor; [apply IH; auto|].
    apply Forall_app; split; auto.
Qed.

Lemma sorted_keys_head_min k q rest ka :
  sorted_keys ((k, q) :: rest) -> In ka (keys ((k, q) :: rest)) ->
  k = ka \/ of_lt k ka.
Proof.
  intros Hs [Heq | Hin]; [left; auto|right].
  apply sorted_keys_cons_inv in Hs as [_ Hf].
  apply in_map_iff in Hin as [[k' q'] [Hk Hin]]; simpl in Hk; subst.
  rewrite Forall_forall in Hf; apply (Hf _ Hin).
Qed.

Lemma sorted_keys_last_max pre k q kb :
  sorted_keys (pre ++ [(k, q)]) -> In kb (keys (pre ++ [(k, q)])) ->
  kb = k \/ of_lt kb k.
Proof.
  intros Hs Hin.
  apply sorted_keys_app_last_inv in Hs as [_ Hf].
  unfold keys in Hin; rewrite map_app, in_app_iff in Hin.
  destruct Hin as [Hin | [Heq | []]]; [right | left; auto].
  apply in_map_iff in Hin as [[k' q'] [Hk Hin]]; simpl in Hk; subst.
  rewrite Forall_forall in Hf; apply (Hf _ Hin).
Qed.

(** * One iteration preserves the side invariants *)

Lemma side_ok_tail e rest : side_ok (e :: rest) -> side_ok rest.
Proof.
  intros [Hs Hl]; apply sorted_keys_cons_inv in Hs as [Hs _].
  inversion Hl; split; auto.
Qed.

Lemma side_ok_head k q q' rest :
  side_ok ((k, q) :: rest) -> level_ok (k, q') -> side_ok ((k, q') :: rest).
Proof.
  intros [Hs Hl] Hq; apply sorted_keys_cons_inv in Hs as [Hs Hf].
  inversion Hl; subst; split; [constructor; auto | constructor; auto].
Qed.

Lemma side_ok_init pre e : side_ok (pre ++ [e]) -> side_ok pre.
Proof.
  intros [Hs Hl]; apply sorted_keys_app_last_inv in Hs as [Hs _].
  apply Forall_app in Hl as [Hl _]; split; auto.
Qed.

Lemma side_ok_last pre k q q' :
  side_ok (pre ++ [(k, q)]) -> level_ok (k, q') -> side_ok (pre ++ [(k, q')]).
Proof.
  intros [Hs Hl] Hq; apply sorted_keys_app_last_inv in Hs as [Hs Hf].
  apply Forall_app in Hl as [Hl _].
  split; [apply sorted_keys_app_last; auto | apply Forall_app; auto].
Qed.

Lemma level_ok_of_side_head k q rest : side_ok ((k, q) :: rest) -> level_ok (k, q).
Proof. intros [_ Hl]; inversion Hl; auto. Qed.

Lemma level_ok_of_side_last pre k q : side_ok (pre ++ [(k, q)]) -> level_ok (k, q).
Proof.
  intros [_ Hl]; apply Forall_app in Hl as [_ Hl]; inversion Hl; auto.
Qed.

(** The level's queue after its front traded [d]. *)
Lemma front_trade_ok k best tl d :
  level_ok (k, best :: tl) ->
  Forall (order_ok k)
    (if (quantity best - d =? 0)%N then tl
     else set_quantity best (quantity best - d) :: tl).
Proof.
  intros [_ Hf]; inversion Hf as [|? ? [Hp Hpr] Htl]; subst.
  destruct (N.eqb_spec (quantity best - d) 0); auto.
  constructor; auto; split; simpl; [lia | auto].
Qed.

Lemma match_bid_iter_side_ok asks o asks' o' t :
  side_ok asks -> match_bid_iter asks o = Continue asks' o' t ->
  side_ok asks' /\ incl (keys asks') (keys asks).
Proof.
  intros Hok Hi.
  destruct (match_bid_iter_continue _ _ _ _ _ Hi)
    as (k & best & tl & rest & -> & _ & _ & _ & _ & _ & _ & Ha).
  cbv zeta in Ha.
  pose proof (front_trade_ok k best tl (tr_qty t) (level_ok_of_side_head _ _ _ Hok)) as Hq.
  revert Ha Hq.
  generalize (if (quantity best - tr_qty t =? 0)%N then tl
              else set_quantity best (quantity best - tr_qty t) :: tl).
  intros q' -> Hq; destruct q' as [|x r].
  - split; [eapply side_ok_tail; eauto | intros y Hy; right; auto].
  - split; [eapply side_ok_head; eauto; split; [discriminate | auto] | apply incl_refl].
Qed.

Lemma match_ask_iter_side_ok bids o bids' o' t :
  side_ok bids -> match_ask_iter bids o = Continue bids' o' t ->
  side_ok bids' /\ incl (keys bids') (keys bids).
Proof.
  intros Hok Hi.
  destruct (match_ask_iter_continue _ _ _ _ _ Hi)
    as (pre & k & best & tl & -> & _ & _ & _ & _ & _ & _ & Ha).
  cbv zeta in Ha.
  pose proof (front_trade_ok k best tl (tr_qty t) (level_ok_of_side_last _ _ _ Hok)) as Hq.
  revert Ha Hq.
  generalize (if (quantity best - tr_qty t =? 0)%N then tl
              else set_quantity best (quantity best - tr_qty t) :: tl).
  intros q' -> Hq; destruct q' as [|x r].
  - split; [eapply side_ok_init; eauto | unfold keys; rewrite map_app; apply incl_appl, incl_refl].
  - split; [eapply side_ok_last; eauto; split; [discriminate | auto] |].
    unfold keys; rewrite !map_app; apply incl_refl.
Qed.

Lemma match_bid_iter_no_panic asks o : side_ok asks -> match_bid_iter asks o <> Panic.
Proof.
  intros Hok; unfold match_bid_iter; cbv zeta.
  destruct asks as [|[k q] rest]; [discriminate|].
  destruct (f64_gt k (price o)); [discriminate|].
  destruct q as [|best tl].
  - destruct (level_ok_of_side_head _ _ _ Hok) as [Hne _]; contradiction.
  - rewrite u64_sub_min_l, u64_sub_min_r; discriminate.
Qed.

Lemma match_ask_iter_no_panic bids o : side_ok bids -> match_ask_iter bids o <> Panic.
Proof.
  intros Hok; unfold match_ask_iter; cbv zeta.
  destruct (last_entry bids) as [[pre [k q]]|] eqn:Hl; [|discriminate].
  apply last_entry_some in Hl; subst.
  destruct (f64_lt k (price o)); [discriminate|].
  destruct q as [|best tl].
  - destruct (level_ok_of_side_last _ _ _ Hok) as [Hne _]; contradiction.
  - rewrite u64_sub_min_l, u64_sub_min_r; discriminate.
Qed.

(** * The loop variant *)

Lemma count_orders_app m1 m2 :
  count_orders (m1 ++ m2) = (count_orders m1 + count_orders m2)%nat.
Proof. induction m1 as [|e m1 IH]; simpl; [reflexivity | rewrite IH; lia]. Qed.

(** The quantity left to the front order and to the incoming order after a
    trade of [min]: one of them decreases, or the front order is popped. *)
Lemma front_trade_count qo best tl :
  (0 < qo)%N ->
  let d := N.min qo (quantity best) in
  let q' := if (quantity best - d =? 0)%N then tl
            else set_quantity best (quantity best - d) :: tl in
  (N.to_nat (qo - d) + length q' < N.to_nat qo + S (length tl))%nat.
Proof.
  intros Hq d q'; subst d q'.
  destruct (N.eqb_spec (quantity best - N.min qo (quantity best)) 0); simpl; lia.
Qed.

Lemma match_bid_iter_measure asks o asks' o' t :
  (0 < quantity o)%N -> match_bid_iter asks o = Continue asks' o' t ->
  (N.to_nat (quantity o') + count_orders asks' <
   N.to_nat (quantity o) + count_orders asks)%nat.
Proof.
  intros Hq Hi.
  destruct (match_bid_iter_continue _ _ _ _ _ Hi)
    as (k & best & tl & rest & -> & _ & _ & Htq & _ & _ & -> & Ha).
  cbv zeta in Ha; rewrite Htq in Ha |- *.
  pose proof (front_trade_count (quantity o) best tl Hq) as Hc; cbv zeta in Hc.
  revert Ha Hc.
  generalize (if (quantity best - N.min (quantity o) (quantity best) =? 0)%N then tl
              else set_quantity best (quantity best - N.min (quantity o) (quantity best)) :: tl).
  intros q' -> Hc; destruct q' as [|x r]; simpl in *; lia.
Qed.

Lemma match_ask_iter_measure bids o bids' o' t :
  (0 < quantity o)%N -> match_ask_iter bids o = Continue bids' o' t ->
  (N.to_nat (quantity o') + count_orders bids' <
   N.to_nat (quantity o) + count_orders bids)%nat.
Proof.
  intros Hq Hi.
  destruct (match_ask_iter_continue _ _ _ _ _ Hi)
    as (pre & k & best & tl & -> & _ & _ & Htq & _ & _ & -> & Ha).
  cbv zeta in Ha; rewrite Htq in Ha |- *.
  pose proof (front_trade_count (quantity o) best tl Hq) as Hc; cbv zeta in Hc.
  revert Ha Hc.
  generalize (if (quantity best - N.min (quantity o) (quantity best) =? 0)%N then tl
              else set_quantity best (quantity best - N.min (quantity o) (quantity best)) :: tl).
  intros q' -> Hc; destruct q' as [|x r]; rewrite ?count_orders_app; simpl in *; lia.
Qed.

Lemma match_bid_loop_enough_fuel fuel asks o :
  (N.to_nat (quantity o) + count_orders asks < fuel)%nat ->
  match_bid_loop fuel asks o <> OutOfFuel.
Proof.
  revert asks o; induction fuel as [|fuel IH]; intros asks o Hf; [lia|].
  simpl; destruct (N.ltb_spec 0 (quantity o)) as [Hq|]; [|discriminate].
  destruct (match_bid_iter asks o) as [|asks' o' t|] eqn:Hi; try discriminate.
  pose proof (match_bid_iter_measure _ _ _ _ _ Hq Hi).
  specialize (IH asks' o' ltac:(lia)).
  destruct (match_bid_loop fuel asks' o'); congruence.
Qed.

Lemma match_ask_loop_enough_fuel fuel bids o :
  (N.to_nat (quantity o) + count_orders bids < fuel)%nat ->
  match_ask_loop fuel bids o <> OutOfFuel.
Proof.
  revert bids o; induction fuel as [|fuel IH]; intros bids o Hf; [lia|].
  simpl; destruct (N.ltb_spec 0 (quantity o)) as [Hq|]; [|discriminate].
  destruct (match_ask_iter bids o) as [|bids' o' t|] eqn:Hi; try discriminate.
  pose proof (match_ask_iter_measure _ _ _ _ _ Hq Hi).
  specialize (IH bids' o' ltac:(lia)).
  destruct (match_ask_loop fuel bids' o'); congruence.
Qed.

(** * The loops: invariants, exit condition, no panic *)

Lemma match_bid_iter_break asks o :
  match_bid_iter asks o = Break -> bid_stopped asks (price o).
Proof.
  unfold match_bid_iter, bid_stopped; cbv zeta.
  destruct asks as [|[k q] rest]; auto.
  destruct (f64_gt k (price o)); auto.
  destruct q as [|best tl]; [discriminate|].
  rewrite u64_sub_min_l, u64_sub_min_r; discriminate.
Qed.

Lemma match_ask_iter_break bids o :
  match_ask_iter bids o = Break -> ask_stopped bids (price o).
Proof.
  unfold match_ask_iter, ask_stopped; cbv zeta.
  destruct (last_entry bids) as [[pre [k q]]|]; auto.
  destruct (f64_lt k (price o)); auto.
  destruct q as [|best tl]; [discriminate|].
  rewrite u64_sub_min_l, u64_sub_min_r; discriminate.
Qed.

Lemma match_bid_loop_done fuel asks o asks' o' ts :
  side_ok asks -> match_bid_loop fuel asks o = Done asks' o' ts ->
  side_ok asks' /\ incl (keys asks') (keys asks) /\
  price o' = price o /\ _id o' = _id o /\ side o' = side o /\
  ((quantity o' = 0)%N \/ bid_stopped asks' (price o)).
Proof.
  revert asks o ts; induction fuel as [|fuel IH]; intros asks o ts Hok Hl; [discriminate|].
  simpl in Hl; destruct (N.ltb_spec 0 (quantity o)) as [Hq|Hq].
  - destruct (match_bid_iter asks o) as [|m o1 t|] eqn:Hi; try discriminate.
    + injection Hl; intros; subst.
      refine (conj Hok _); repeat split; auto using incl_refl, match_bid_iter_break.
    + destruct (match_bid_loop fuel m o1) as [m2 o2 ts2| |] eqn:Hl2; try discriminate.
      injection Hl; intros; subst.
      destruct (match_bid_iter_side_ok _ _ _ _ _ Hok Hi) as [Hok1 Hinc1].
      destruct (match_bid_iter_continue _ _ _ _ _ Hi) as (_ & _ & _ & _ & _ & _ & _ & _ & _ & _ & Ho & _).
      destruct (IH _ _ _ Hok1 Hl2) as (Hok2 & Hinc2 & Hp & Hid & Hs & Hst).
      subst o1; simpl in *.
      refine (conj Hok2 _); repeat split; auto; eapply incl_tran; eauto.
  - injection Hl; intros; subst; refine (conj Hok _); repeat split; auto using incl_refl; left; lia.
Qed.

Lemma match_ask_loop_done fuel bids o bids' o' ts :
  side_ok bids -> match_ask_loop fuel bids o = Done bids' o' ts ->
  side_ok bids' /\ incl (keys bids') (keys bids) /\
  price o' = price o /\ _id o' = _id o /\ side o' = side o /\
  ((quantity o' = 0)%N \/ ask_stopped bids' (price o)).
Proof.
  revert bids o ts; induction fuel as [|fuel IH]; intros bids o ts Hok Hl; [discriminate|].
  simpl in Hl; destruct (N.ltb_spec 0 (quantity o)) as [Hq|Hq].
  - destruct (match_ask_iter bids o) as [|m o1 t|] eqn:Hi; try discriminate.
    + injection Hl; intros; subst.
      refine (conj Hok _); repeat split; auto using incl_refl, match_ask_iter_break.
    + destruct (match_ask_loop fuel m o1) as [m2 o2 ts2| |] eqn:Hl2; try discriminate.
      injection Hl; intros; subst.
      destruct (match_ask_iter_side_ok _ _ _ _ _ Hok Hi) as [Hok1 Hinc1].
      destruct (match_ask_iter_continue _ _ _ _ _ Hi) as (_ & _ & _ & _ & _ & _ & _ & _ & _ & _ & Ho & _).
      destruct (IH _ _ _ Hok1 Hl2) as (Hok2 & Hinc2 & Hp & Hid & Hs & Hst).
      subst o1; simpl in *.
      refine (conj Hok2 _); repeat split; auto; eapply incl_tran; eauto.
  - injection Hl; intros; subst; refine (conj Hok _); repeat split; auto using incl_refl; left; lia.
Qed.

Lemma match_bid_loop_no_panic fuel asks o :
  side_ok asks -> match_bid_loop fuel asks o <> Panicked.
Proof.
  revert asks o; induction fuel as [|fuel IH]; intros asks o Hok; [discriminate|].
  simpl; destruct (0 <? quantity o)%N; [|discriminate].
  pose proof (match_bid_iter_no_panic asks o Hok).
  destruct (match_bid_iter asks o) as [|m o1 t|] eqn:Hi; try congruence.
  destruct (match_bid_iter_side_ok _ _ _ _ _ Hok Hi) as [Hok1 _].
  specialize (IH m o1 Hok1); destruct (match_bid_loop fuel m o1); congruence.
Qed.

Lemma match_ask_loop_no_panic fuel bids o :
  side_ok bids -> match_ask_loop fuel bids o <> Panicked.
Proof.
  revert bids o; induction fuel as [|fuel IH]; intros bids o Hok; [discriminate|].
  simpl; destruct (0 <? quantity o)%N; [|discriminate].
  pose proof (match_ask_iter_no_panic bids o Hok).
  destruct (match_ask_iter bids o) as [|m o1 t|] eqn:Hi; try congruence.
  destruct (match_ask_iter_side_ok _ _ _ _ _ Hok Hi) as [Hok1 _].
  specialize (IH m o1 Hok1); destruct (match_ask_loop fuel m o1); congruence.
Qed.

(** * Resting an order: [entry(k).or_default().push_back(o)] *)

Lemma keys_push m k o : incl (keys (entry_push_back m k o)) (k :: keys m).
Proof.
  induction m as [|[k' q] rest IH]; simpl; [apply incl_refl|].
  destruct (of_cmp k k') eqn:Hc; simpl.
  - apply of_cmp_eq in Hc; subst; intros x Hx; simpl in *; tauto.
  - apply incl_refl.
  - intros x [Hx|Hx]; [right; left; auto|].
    destruct (IH x Hx) as [Hy|Hy]; [left; auto | right; right; auto].
Qed.

Lemma Forall_push (P : f64 -> Prop) m k o :
  P k -> Forall (fun e => P (fst e)) m -> Forall (fun e => P (fst e)) (entry_push_back m k o).
Proof.
  intros Hk Hm; apply Forall_forall; intros [k1 q1] Hin.
  assert (Hk1 : In k1 (k :: keys m))
    by (apply keys_push with (o := o); apply in_map_iff; exists (k1, q1); auto).
  destruct Hk1 as [<-|Hk1]; auto.
  apply in_map_iff in Hk1 as [[k2 q2] [Heq Hin2]]; simpl in Heq; subst.
  rewrite Forall_forall in Hm; apply (Hm _ Hin2).
Qed.

Lemma side_ok_push m k o : side_ok m -> order_ok k o -> side_ok (entry_push_back m k o).
Proof.
  intros Hok Ho; induction m as [|[k' q] rest IH]; simpl.
  - split; [apply SSorted_cons; constructor|].
    constructor; [split; [discriminate | constructor; [exact Ho | constructor]] | constructor].
  - destruct (of_cmp k k') eqn:Hc.
    + apply of_cmp_eq in Hc; subst.
      eapply side_ok_head; eauto; split; simpl.
      * destruct q; discriminate.
      * apply Forall_app; split; [apply (level_ok_of_side_head _ _ _ Hok) | auto].
    + destruct Hok as [Hs Hl]; split.
      * constructor; auto.
        apply sorted_keys_cons_inv in Hs as [_ Hf].
        constructor; [exact Hc|].
        eapply Forall_impl; [|exact Hf]; intros e He; eapply of_lt_trans; eauto.
      * constructor; auto; split; [discriminate | constructor; [exact Ho | constructor]].
    + apply of_cmp_gt in Hc.
      destruct (IH (side_ok_tail _ _ Hok)) as [Hs' Hl'].
      destruct Hok as [Hs Hl]; apply sorted_keys_cons_inv in Hs as [_ Hf].
      split.
      * constructor; auto; apply (Forall_push (of_lt k')); auto.
      * inversion Hl; constructor; auto.
Qed.

Lemma level_of_absent m k :
  Forall (fun e => of_lt k (fst e)) m -> level_of m k = [].
Proof.
  induction m as [|[k' q] rest IH]; intros Hf; simpl; auto.
  inversion Hf as [|? ? Hk Hr]; subst; simpl in Hk; unfold of_lt in Hk.
  rewrite Hk; auto.
Qed.

(** Arrival order: the order is appended at the back of its level. *)
Lemma level_of_push m k o :
  sorted_keys m -> level_of (entry_push_back m k o) k = level_of m k ++ [o].
Proof.
  induction m as [|[k' q] rest IH]; intros Hs; simpl.
  - rewrite of_cmp_refl; reflexivity.
  - destruct (of_cmp k k') eqn:Hc; simpl.
    + rewrite Hc; reflexivity.
    + rewrite of_cmp_refl.
      apply sorted_keys_cons_inv in Hs as [_ Hf].
      rewrite level_of_absent; auto.
      eapply Forall_impl; [|exact Hf]; intros e He; eapply of_lt_trans; eauto.
    + rewrite Hc; apply IH; apply (sorted_keys_cons_inv _ _ Hs).
Qed.

(** * [add_order] preserves the invariants and always completes *)

Lemma in_keys_last pre k q : In k (keys (pre ++ [(k, q)])).
Proof. unfold keys; rewrite map_app; apply in_or_app; right; left; reflexivity. Qed.

Lemma add_order_ok b o b' ts :
  book_ok b -> add_order b o = Completed b' ts ->
  book_ok b' /\
  incl (keys (bids b')) (price o :: keys (bids b)) /\
  incl (keys (asks b')) (price o :: keys (asks b)).
Proof.
  intros (Hbids & Hasks & Hsep); unfold add_order; destruct (side o).
  - unfold match_bid.
    destruct (match_bid_loop _ (asks b) o) as [m o' tr| |] eqn:Hl; try discriminate.
    intros H; injection H; intros; subst b' ts; simpl.
    destruct (match_bid_loop_done _ _ _ _ _ _ Hasks Hl)
      as (Hm & Hinc & Hp & _ & _ & Hstop).
    destruct (N.ltb_spec 0 (quantity o')) as [Hq|Hq].
    + assert (Hkb : incl (keys (entry_push_back (bids b) (price o') o'))
                         (price o :: keys (bids b)))
        by (rewrite <- Hp; apply keys_push).
      split; [split; [|split]|split].
      * apply side_ok_push; auto; split; auto.
      * auto.
      * intros kb ka Hb Ha; simpl in Hb, Ha.
        destruct (Hkb _ Hb) as [<-|Hb'].
        -- destruct Hstop as [Hz|Hstop]; [lia|].
           destruct m as [|[k0 q0] r]; [destruct Ha|].
           simpl in Hstop; apply f64_gt_of_lt in Hstop.
           destruct (sorted_keys_head_min _ _ _ _ (proj1 Hm) Ha) as [<-|Hlt]; auto.
           eapply of_lt_trans; eauto.
        -- apply Hsep; auto.
      * exact Hkb.
      * intros x Hx; right; auto.
    + split; [split; [|split]|split]; simpl; auto.
      * intros kb ka Hb Ha; apply Hsep; auto.
      * intros x Hx; right; auto.
      * intros x Hx; right; auto.
  - unfold match_ask.
    destruct (match_ask_loop _ (bids b) o) as [m o' tr| |] eqn:Hl; try discriminate.
    intros H; injection H; intros; subst b' ts; simpl.
    destruct (match_ask_loop_done _ _ _ _ _ _ Hbids Hl)
      as (Hm & Hinc & Hp & _ & _ & Hstop).
    destruct (N.ltb_spec 0 (quantity o')) as [Hq|Hq].
    + assert (Hka : incl (keys (entry_push_back (asks b) (price o') o'))
                         (price o :: keys (asks b)))
        by (rewrite <- Hp; apply keys_push).
      split; [split; [|split]|split].
      * auto.
      * apply side_ok_push; auto; split; auto.
      * intros kb ka Hb Ha; simpl in Hb, Ha.
        destruct (Hka _ Ha) as [<-|Ha'].
        -- destruct Hstop as [Hz|Hstop]; [lia|].
           unfold ask_stopped in Hstop.
           destruct (last_entry m) as [[pre [k0 q0]]|] eqn:Hle.
           ++ apply last_entry_some in Hle; subst m.
              unfold f64_lt in Hstop; apply f64_gt_of_lt in Hstop.
              destruct (sorted_keys_last_max _ _ _ _ (proj1 Hm) Hb) as [->|Hlt]; auto.
              eapply of_lt_trans; eauto.
           ++ apply last_entry_none in Hle; subst m; destruct Hb.
        -- apply Hsep; auto.
      * intros x Hx; right; auto.
      * exact Hka.
    + split; [split; [|split]|split]; simpl; auto.
      * intros kb ka Hb Ha; apply Hsep; auto.
      * intros x Hx; right; auto.
      * intros x Hx; right; auto.
Qed.

Lemma add_order_not_diverged b o : add_order b o <> Diverged.
Proof.
  unfold add_order, match_bid, match_ask, loop_fuel; destruct (side o).
  - pose proof (match_bid_loop_enough_fuel
                  (S (N.to_nat (quantity o) + count_orders (asks b))) (asks b) o
                  ltac:(lia)) as H.
    destruct (match_bid_loop _ _ _); congruence.
  - pose proof (match_ask_loop_enough_fuel
                  (S (N.to_nat (quantity o) + count_orders (bids b))) (bids b) o
                  ltac:(lia)) as H.
    destruct (match_ask_loop _ _ _); congruence.
Qed.

Lemma add_order_completes b o :
  book_ok b -> exists b' ts, add_order b o = Completed b' ts.
Proof.
  intros (Hbids & Hasks & _).
  pose proof (add_order_not_diverged b o) as Hd; revert Hd.
  unfold add_order, match_bid, match_ask; destruct (side o).
  - pose proof (match_bid_loop_no_panic (loop_fuel (asks b) o) (asks b) o Hasks).
    destruct (match_bid_loop _ _ _); try congruence; eauto.
  - pose proof (match_ask_loop_no_panic (loop_fuel (bids b) o) (bids b) o Hbids).
    destruct (match_ask_loop _ _ _); try congruence; eauto.
Qed.

Lemma new_book_ok : book_ok new_book.
Proof.
  split; [|split]; [split; constructor | split; constructor |].
  intros kb ka [].
Qed.

Lemma reachable_book_ok P b : reachable P b -> book_ok b.
Proof.
  induction 1 as [|b o b' ts Hr IH Ho Ha]; [apply new_book_ok|].
  exact (proj1 (add_order_ok _ _ _ _ IH Ha)).
Qed.

Lemma reachable_keys_valid b : reachable valid_order b -> keys_valid b.
Proof.
  induction 1 as [|b o b' ts Hr IH Ho Ha]; [constructor|].
  destruct (add_order_ok _ _ _ _ (reachable_book_ok _ _ Hr) Ha) as (_ & Hb & Hs).
  unfold keys_valid in *; rewrite Forall_forall in *.
  intros k Hk; apply in_app_or in Hk as [Hk|Hk];
    [destruct (Hb _ Hk) as [<-|Hk'] | destruct (Hs _ Hk) as [<-|Hk']];
    try apply (proj1 Ho); apply IH, in_or_app; auto.
Qed.

(** * Conservation of quantities *)

Lemma queue_total_app q1 q2 : queue_total (q1 ++ q2) = (queue_total q1 + queue_total q2)%N.
Proof. induction q1 as [|o q1 IH]; simpl; [reflexivity | rewrite IH; lia]. Qed.

Lemma side_total_app m1 m2 : side_total (m1 ++ m2) = (side_total m1 + side_total m2)%N.
Proof. induction m1 as [|e m1 IH]; simpl; [reflexivity | rewrite IH; lia]. Qed.

Lemma side_total_push m k o :
  side_total (entry_push_back m k o) = (side_total m + quantity o)%N.
Proof.
  induction m as [|[k' q] rest IH]; simpl; [lia|].
  destruct (of_cmp k k'); simpl; rewrite ?IH, ?queue_total_app; simpl; lia.
Qed.

(** What one trade takes from the front order and the incoming order. *)
Lemma front_trade_total qo best tl :
  let d := N.min qo (quantity best) in
  let q' := if (quantity best - d =? 0)%N then tl
            else set_quantity best (quantity best - d) :: tl in
  (queue_total q' + d = quantity best + queue_total tl)%N /\ (qo - d + d = qo)%N.
Proof.
  intros d q'; subst d q'.
  destruct (N.eqb_spec (quantity best - N.min qo (quantity best)) 0); simpl; lia.
Qed.

Lemma match_bid_iter_conserve asks o asks' o' t :
  match_bid_iter asks o = Continue asks' o' t ->
  (side_total asks' + tr_qty t = side_total asks)%N /\
  (quantity o' + tr_qty t = quantity o)%N.
Proof.
  intros Hi.
  destruct (match_bid_iter_continue _ _ _ _ _ Hi)
    as (k & best & tl & rest & -> & _ & _ & Htq & _ & _ & -> & Ha).
  cbv zeta in Ha; rewrite Htq in Ha |- *.
  pose proof (front_trade_total (quantity o) best tl) as Hc; cbv zeta in Hc.
  revert Ha Hc.
  generalize (if (quantity best - N.min (quantity o) (quantity best) =? 0)%N then tl
              else set_quantity best (quantity best - N.min (quantity o) (quantity best)) :: tl).
  intros q' -> Hc; destruct q' as [|x r]; simpl in *; lia.
Qed.

Lemma match_ask_iter_conserve bids o bids' o' t :
  match_ask_iter bids o = Continue bids' o' t ->
  (side_total bids' + tr_qty t = side_total bids)%N /\
  (quantity o' + tr_qty t = quantity o)%N.
Proof.
  intros Hi.
  destruct (match_ask_iter_continue _ _ _ _ _ Hi)
    as (pre & k & best & tl & -> & _ & _ & Htq & _ & _ & -> & Ha).
  cbv zeta in Ha; rewrite Htq in Ha |- *.
  pose proof (front_trade_total (quantity o) best tl) as Hc; cbv zeta in Hc.
  revert Ha Hc.
  generalize (if (quantity best - N.min (quantity o) (quantity best) =? 0)%N then tl
              else set_quantity best (quantity best - N.min (quantity o) (quantity best)) :: tl).
  intros q' -> Hc; destruct q' as [|x r]; rewrite ?side_total_app; simpl in *; lia.
Qed.

Lemma match_bid_loop_conserve fuel asks o asks' o' ts :
  match_bid_loop fuel asks o = Done asks' o' ts ->
  (side_total asks' + traded_total ts = side_total asks)%N /\
  (quantity o' + traded_total ts = quantity o)%N /\
  price o' = price o /\ side o' = side o.
Proof.
  revert asks o ts; induction fuel as [|fuel IH]; intros asks o ts Hl; [discriminate|].
  simpl in Hl; destruct (0 <? quantity o)%N.
  - destruct (match_bid_iter asks o) as [|m o1 t|] eqn:Hi; try discriminate.
    + injection Hl; intros; subst; simpl; repeat split; lia.
    + destruct (match_bid_loop fuel m o1) as [m2 o2 ts2| |] eqn:Hl2; try discriminate.
      injection Hl; intros; subst.
      destruct (match_bid_iter_conserve _ _ _ _ _ Hi) as [H1 H2].
      destruct (match_bid_iter_continue _ _ _ _ _ Hi) as (_ & _ & _ & _ & _ & _ & _ & _ & _ & _ & Ho & _).
      destruct (IH _ _ _ Hl2) as (H3 & H4 & H5 & H6).
      subst o1; simpl in *; repeat split; auto; lia.
  - injection Hl; intros; subst; simpl; repeat split; lia.
Qed.

Lemma match_ask_loop_conserve fuel bids o bids' o' ts :
  match_ask_loop fuel bids o = Done bids' o' ts ->
  (side_total bids' + traded_total ts = side_total bids)%N /\
  (quantity o' + traded_total ts = quantity o)%N /\
  price o' = price o /\ side o' = side o.
Proof.
  revert bids o ts; induction fuel as [|fuel IH]; intros bids o ts Hl; [discriminate|].
  simpl in Hl; destruct (0 <? quantity o)%N.
  - destruct (match_ask_iter bids o) as [|m o1 t|] eqn:Hi; try discriminate.
    + injection Hl; intros; subst; simpl; repeat split; lia.
    + destruct (match_ask_loop fuel m o1) as [m2 o2 ts2| |] eqn:Hl2; try discriminate.
      injection Hl; intros; subst.
      destruct (match_ask_iter_conserve _ _ _ _ _ Hi) as [H1 H2].
      destruct (match_ask_iter_continue _ _ _ _ _ Hi) as (_ & _ & _ & _ & _ & _ & _ & _ & _ & _ & Ho & _).
      destruct (IH _ _ _ Hl2) as (H3 & H4 & H5 & H6).
      subst o1; simpl in *; repeat split; auto; lia.
  - injection Hl; intros; subst; simpl; repeat split; lia.
Qed.

(** * Termination with positive resting quantities *)

Lemma front_trade_pos best tl d :
  Forall (fun o => (0 < quantity o)%N) (best :: tl) ->
  Forall (fun o => (0 < quantity o)%N)
    (if (quantity best - d =? 0)%N then tl
     else set_quantity best (quantity best - d) :: tl).
Proof.
  intros Hf; inversion Hf; subst.
  destruct (N.eqb_spec (quantity best - d) 0); auto.
  constructor; auto; simpl; lia.
Qed.

Lemma match_bid_iter_pos asks o asks' o' t :
  resting_pos asks -> (0 < quantity o)%N ->
  match_bid_iter asks o = Continue asks' o' t ->
  resting_pos asks' /\ (1 <= tr_qty t)%N /\ (quantity o' < quantity o)%N.
Proof.
  intros Hp Hq Hi.
  destruct (match_bid_iter_continue _ _ _ _ _ Hi)
    as (k & best & tl & rest & -> & _ & _ & Htq & _ & _ & -> & Ha).
  inversion Hp as [|? ? Hlev Hrest]; subst; simpl in Hlev.
  assert (Hb : (0 < quantity best)%N) by (inversion Hlev; auto).
  pose proof (front_trade_pos best tl (tr_qty t) Hlev) as Hf.
  cbv zeta in Ha; revert Ha Hf.
  generalize (if (quantity best - tr_qty t =? 0)%N then tl
              else set_quantity best (quantity best - tr_qty t) :: tl).
  intros q' -> Hf; simpl.
  split; [destruct q'; [auto | constructor; auto] | lia].
Qed.

Lemma match_ask_iter_pos bids o bids' o' t :
  resting_pos bids -> (0 < quantity o)%N ->
  match_ask_iter bids o = Continue bids' o' t ->
  resting_pos bids' /\ (1 <= tr_qty t)%N /\ (quantity o' < quantity o)%N.
Proof.
  intros Hp Hq Hi.
  destruct (match_ask_iter_continue _ _ _ _ _ Hi)
    as (pre & k & best & tl & -> & _ & _ & Htq & _ & _ & -> & Ha).
  unfold resting_pos in Hp; apply Forall_app in Hp as [Hpre Hlast].
  inversion Hlast as [|? ? Hlev _]; subst; simpl in Hlev.
  assert (Hb : (0 < quantity best)%N) by (inversion Hlev; auto).
  pose proof (front_trade_pos best tl (tr_qty t) Hlev) as Hf.
  cbv zeta in Ha; revert Ha Hf.
  generalize (if (quantity best - tr_qty t =? 0)%N then tl
              else set_quantity best (quantity best - tr_qty t) :: tl).
  intros q' -> Hf; simpl.
  split; [destruct q'; [auto | apply Forall_app; split; auto] | lia].
Qed.

Lemma match_bid_loop_pos_fuel fuel asks o :
  resting_pos asks -> (N.to_nat (quantity o) < fuel)%nat ->
  match_bid_loop fuel asks o <> OutOfFuel.
Proof.
  revert asks o; induction fuel as [|fuel IH]; intros asks o Hp Hf; [lia|].
  simpl; destruct (N.ltb_spec 0 (quantity o)) as [Hq|]; [|discriminate].
  destruct (match_bid_iter asks o) as [|asks' o' t|] eqn:Hi; try discriminate.
  destruct (match_bid_iter_pos _ _ _ _ _ Hp Hq Hi) as (Hp' & _ & Hlt).
  specialize (IH asks' o' Hp' ltac:(lia)).
  destruct (match_bid_loop fuel asks' o'); congruence.
Qed.

Lemma match_ask_loop_pos_fuel fuel bids o :
  resting_pos bids -> (N.to_nat (quantity o) < fuel)%nat ->
  match_ask_loop fuel bids o <> OutOfFuel.
Proof.
  revert bids o; induction fuel as [|fuel IH]; intros bids o Hp Hf; [lia|].
  simpl; destruct (N.ltb_spec 0 (quantity o)) as [Hq|]; [|discriminate].
  destruct (match_ask_iter bids o) as [|bids' o' t|] eqn:Hi; try discriminate.
  destruct (match_ask_iter_pos _ _ _ _ _ Hp Hq Hi) as (Hp' & _ & Hlt).
  specialize (IH bids' o' Hp' ltac:(lia)).
  destruct (match_ask_loop fuel bids' o'); congruence.
Qed.

Lemma add_order_zero_qty b o : quantity o = 0%N -> add_order b o = Completed b [].
Proof.
  intros Hq; unfold add_order, match_bid, match_ask, loop_fuel.
  destruct (side o); simpl; rewrite Hq; simpl; rewrite Hq; simpl; destruct b; reflexivity.
Qed.

(** * Makers and takers of the trades *)

Lemma front_trade_idp best tl d :
  incl (map idp (if (quantity best - d =? 0)%N then tl
                 else set_quantity best (quantity best - d) :: tl))
       (map idp (best :: tl)).
Proof.
  destruct (quantity best - d =? 0)%N; simpl; [intros x Hx; right; auto | apply incl_refl].
Qed.

Lemma match_bid_iter_trade asks o asks' o' t :
  side_ok asks -> match_bid_iter asks o = Continue asks' o' t ->
  incl (map idp (side_orders asks')) (map idp (side_orders asks)) /\
  taker_order_id t = _id o /\
  In (maker_order_id t, tr_price t) (map idp (side_orders asks)) /\
  _id o' = _id o.
Proof.
  intros Hok Hi.
  destruct (match_bid_iter_continue _ _ _ _ _ Hi)
    as (k & best & tl & rest & -> & _ & Hpr & _ & Hmk & Htk & -> & Ha).
  destruct (level_ok_of_side_head _ _ _ Hok) as [_ Hf].
  inversion Hf as [|? ? [_ Hpb] _]; subst; simpl in Hpb.
  pose proof (front_trade_idp best tl (tr_qty t)) as Hq.
  cbv zeta in Ha; revert Ha Hq.
  generalize (if (quantity best - tr_qty t =? 0)%N then tl
              else set_quantity best (quantity best - tr_qty t) :: tl).
  intros q' -> Hq.
  unfold side_orders; cbn [flat_map snd].
  split; [|split; [auto | split; [|reflexivity]]].
  - destruct q' as [|x r]; cbn [flat_map snd]; rewrite !map_app.
    + apply incl_appr, incl_refl.
    + apply incl_app_app; [exact Hq | apply incl_refl].
  - rewrite map_app; apply in_or_app; left; left; unfold idp; congruence.
Qed.

Lemma match_ask_iter_trade bids o bids' o' t :
  side_ok bids -> match_ask_iter bids o = Continue bids' o' t ->
  incl (map idp (side_orders bids')) (map idp (side_orders bids)) /\
  taker_order_id t = _id o /\
  In (maker_order_id t, tr_price t) (map idp (side_orders bids)) /\
  _id o' = _id o.
Proof.
  intros Hok Hi.
  destruct (match_ask_iter_continue _ _ _ _ _ Hi)
    as (pre & k & best & tl & -> & _ & Hpr & _ & Hmk & Htk & -> & Ha).
  destruct (level_ok_of_side_last _ _ _ Hok) as [_ Hf].
  inversion Hf as [|? ? [_ Hpb] _]; subst; simpl in Hpb.
  pose proof (front_trade_idp best tl (tr_qty t)) as Hq.
  cbv zeta in Ha; revert Ha Hq.
  generalize (if (quantity best - tr_qty t =? 0)%N then tl
              else set_quantity best (quantity best - tr_qty t) :: tl).
  intros q' -> Hq.
  unfold side_orders; rewrite flat_map_app; cbn [flat_map snd]; rewrite app_nil_r.
  split; [|split; [auto | split; [|reflexivity]]].
  - destruct q' as [|x r]; rewrite !map_app.
    + apply incl_appl, incl_refl.
    + rewrite flat_map_app; cbn [flat_map snd]; rewrite app_nil_r, map_app.
      apply incl_app_app; [apply incl_refl | exact Hq].
  - rewrite map_app; apply in_or_app; right; left; unfold idp; congruence.
Qed.

Lemma match_bid_loop_trades fuel asks o asks' o' ts :
  side_ok asks -> match_bid_loop fuel asks o = Done asks' o' ts ->
  Forall (fun t => taker_order_id t = _id o /\
                   In (maker_order_id t, tr_price t) (map idp (side_orders asks))) ts.
Proof.
  revert asks o ts; induction fuel as [|fuel IH]; intros asks o ts Hok Hl; [discriminate|].
  simpl in Hl; destruct (0 <? quantity o)%N.
  - destruct (match_bid_iter asks o) as [|m o1 t|] eqn:Hi; try discriminate.
    + injection Hl; intros; subst; constructor.
    + destruct (match_bid_loop fuel m o1) as [m2 o2 ts2| |] eqn:Hl2; try discriminate.
      injection Hl; intros; subst.
      destruct (match_bid_iter_side_ok _ _ _ _ _ Hok Hi) as [Hok1 _].
      destruct (match_bid_iter_trade _ _ _ _ _ Hok Hi) as (Hinc & Htk & Hmk & Hid).
      constructor; [auto|].
      eapply Forall_impl; [|exact (IH _ _ _ Hok1 Hl2)].
      intros t' [H1 H2]; split; [congruence | apply Hinc; auto].
  - injection Hl; intros; subst; constructor.
Qed.

Lemma match_ask_loop_trades fuel bids o bids' o' ts :
  side_ok bids -> match_ask_loop fuel bids o = Done bids' o' ts ->
  Forall (fun t => taker_order_id t = _id o /\
                   In (maker_order_id t, tr_price t) (map idp (side_orders bids))) ts.
Proof.
  revert bids o ts; induction fuel as [|fuel IH]; intros bids o ts Hok Hl; [discriminate|].
  simpl in Hl; destruct (0 <? quantity o)%N.
  - destruct (match_ask_iter bids o) as [|m o1 t|] eqn:Hi; try discriminate.
    + injection Hl; intros; subst; constructor.
    + destruct (match_ask_loop fuel m o1) as [m2 o2 ts2| |] eqn:Hl2; try discriminate.
      injection Hl; intros; subst.
      destruct (match_ask_iter_side_ok _ _ _ _ _ Hok Hi) as [Hok1 _].
      destruct (match_ask_iter_trade _ _ _ _ _ Hok Hi) as (Hinc & Htk & Hmk & Hid).
      constructor; [auto|].
      eapply Forall_impl; [|exact (IH _ _ _ Hok1 Hl2)].
      intros t' [H1 H2]; split; [congruence | apply Hinc; auto].
  - injection Hl; intros; subst; constructor.
Qed.

(** * Claims *)

(** C1 (counterexample): an order with [price <= 0] is not rejected and
    does change the book: a buy of 10 at price 0 on the empty book rests. *)
Lemma C1_nonpositive_price_mutates :
  ~ (forall b o, (f64_le (price o) (Num 0) = true \/ quantity o = 0%N) ->
                 add_order b o = Completed b []).
Proof.
  intros H.
  specialize (H new_book (mkOrder 1 (Num 0) 10 Buy) (or_introl eq_refl)).
  vm_compute in H; discriminate.
Qed.

(** C1 (amended): [add_order] performs no validation and has no error
    result.  An order with [quantity == 0] leaves the book unchanged and
    produces no trade; an order with [price <= 0] and [quantity > 0] is
    accepted and processed like any other order, e.g. on the empty book it
    rests in full on its own side. *)
Theorem add_order_no_validation :
  (forall b o, quantity o = 0%N -> add_order b o = Completed b []) /\
  (forall o, f64_le (price o) (Num 0) = true -> (0 < quantity o)%N ->
     add_order new_book o =
       Completed (match side o with
                  | Buy => mkBook [(price o, [o])] []
                  | Sell => mkBook [] [(price o, [o])]
                  end) []).
Proof.
  split; [apply add_order_zero_qty|].
  intros o _ Hq; apply N.ltb_lt in Hq.
  unfold add_order, match_bid, match_ask, loop_fuel; destruct (side o); simpl;
    rewrite Hq; simpl; rewrite Hq; reflexivity.
Qed.

Lemma add_order_no_validation_witness :
  (quantity (mkOrder 7 (Num 120) 0 Sell) = 0%N /\
   add_order (mkBook [(Num 100, [mkOrder 1 (Num 100) 5 Buy])] [])
             (mkOrder 7 (Num 120) 0 Sell) =
   Completed (mkBook [(Num 100, [mkOrder 1 (Num 100) 5 Buy])] []) []) /\
  (f64_le (Num (-5)) (Num 0) = true /\ (0 < 10)%N /\
   add_order new_book (mkOrder 2 (Num (-5)) 10 Sell) =
   Completed (mkBook [] [(Num (-5), [mkOrder 2 (Num (-5)) 10 Sell])]) []).
Proof.
  split.
  - split; [reflexivity|].
    apply (proj1 add_order_no_validation); reflexivity.
  - split; [reflexivity|]; split; [reflexivity|].
    apply (proj2 add_order_no_validation (mkOrder 2 (Num (-5)) 10 Sell));
      reflexivity.
Defined.

(** C2 (counterexample): [add_order] returns [()], so its result cannot be
    the list of trades: a buy of 50 at 150 against a resting sell of 100 at
    150 executes one trade, the same buy on the empty book executes none,
    and both calls return the same value. *)
Lemma C2_result_carries_no_trades :
  exists b1 ts1 b2 ts2,
    add_order (mkBook [] [(Num 150, [mkOrder 1 (Num 150) 100 Sell])])
              (mkOrder 2 (Num 150) 50 Buy) = Completed b1 ts1 /\
    add_order new_book (mkOrder 2 (Num 150) 50 Buy) = Completed b2 ts2 /\
    ts1 <> ts2 /\
    add_order_ret (mkBook [] [(Num 150, [mkOrder 1 (Num 150) 100 Sell])])
                  (mkOrder 2 (Num 150) 50 Buy) =
    add_order_ret new_book (mkOrder 2 (Num 150) 50 Buy).
Proof.
  do 4 eexists; split; [reflexivity|]; split; [reflexivity|].
  split; [discriminate | reflexivity].
Qed.

(** C2 (amended): [add_order] returns [()] and reports no trade.  The trades
    its matching loop executes (in execution order) each take the incoming
    order as taker and a resting order of the opposite side as maker, at the
    price of that resting order. *)
Theorem trades_at_resting_price b o b' ts :
  book_ok b -> add_order b o = Completed b' ts ->
  add_order_ret b o = Some tt /\
  Forall (fun t => taker_order_id t = _id o /\
                   In (maker_order_id t, tr_price t)
                      (map idp (side_orders (opposite_side b o)))) ts.
Proof.
  intros (Hbids & Hasks & _) Ha.
  unfold add_order_ret; rewrite Ha; split; [reflexivity|].
  revert Ha; unfold add_order, opposite_side, match_bid, match_ask; destruct (side o).
  - destruct (match_bid_loop _ (asks b) o) as [m o' tr| |] eqn:Hl; try discriminate.
    intros H; injection H; intros; subst; eapply match_bid_loop_trades; eauto.
  - destruct (match_ask_loop _ (bids b) o) as [m o' tr| |] eqn:Hl; try discriminate.
    intros H; injection H; intros; subst; eapply match_ask_loop_trades; eauto.
Qed.

Lemma trades_at_resting_price_witness :
  book_ok (mkBook [(Num 100, [mkOrder 1 (Num 100) 50 Buy])] []) /\
  add_order (mkBook [(Num 100, [mkOrder 1 (Num 100) 50 Buy])] [])
            (mkOrder 2 (Num 99) 30 Sell) =
  Completed (mkBook [(Num 100, [mkOrder 1 (Num 100) 20 Buy])] [])
            [mkTrade (Num 100) 30 1 2] /\
  Forall (fun t => taker_order_id t = 2%N /\
                   In (maker_order_id t, tr_price t) [(1%N, Num 100)])
         [mkTrade (Num 100) 30 1 2].
Proof.
  assert (Hok : book_ok (mkBook [(Num 100, [mkOrder 1 (Num 100) 50 Buy])] [])).
  { split; [|split].
    - split; [apply SSorted_cons; constructor|].
      constructor; [|constructor].
      split; [discriminate | constructor; [split; reflexivity | constructor]].
    - split; constructor.
    - intros kb ka _ []. }
  split; [exact Hok|]; split; [reflexivity|].
  exact (proj2 (trades_at_resting_price _ (mkOrder 2 (Num 99) 30 Sell) _ _ Hok eq_refl)).
Defined.

(** C4: quantity conservation.  The quantity traded by the incoming order
    during its matching pass plus what it adds to its own side equals its
    submitted quantity; the opposite side loses exactly the traded
    quantity. *)
Theorem quantity_conserved b o b' ts :
  add_order b o = Completed b' ts ->
  match side o with
  | Buy =>
      (traded_total ts + side_total (bids b') = quantity o + side_total (bids b))%N /\
      (side_total (asks b') + traded_total ts = side_total (asks b))%N
  | Sell =>
      (traded_total ts + side_total (asks b') = quantity o + side_total (asks b))%N /\
      (side_total (bids b') + traded_total ts = side_total (bids b))%N
  end.
Proof.
  unfold add_order, match_bid, match_ask; destruct (side o).
  - destruct (match_bid_loop _ (asks b) o) as [m o' tr| |] eqn:Hl; try discriminate.
    intros H; injection H; intros; subst; simpl.
    destruct (match_bid_loop_conserve _ _ _ _ _ _ Hl) as (H1 & H2 & _ & _).
    destruct (N.ltb_spec 0 (quantity o')); rewrite ?side_total_push; split; lia.
  - destruct (match_ask_loop _ (bids b) o) as [m o' tr| |] eqn:Hl; try discriminate.
    intros H; injection H; intros; subst; simpl.
    destruct (match_ask_loop_conserve _ _ _ _ _ _ Hl) as (H1 & H2 & _ & _).
    destruct (N.ltb_spec 0 (quantity o')); rewrite ?side_total_push; split; lia.
Qed.

Lemma quantity_conserved_witness :
  add_order (mkBook [] [(Num 140, [mkOrder 1 (Num 140) 30 Sell])])
            (mkOrder 2 (Num 150) 100 Buy) =
  Completed (mkBook [(Num 150, [mkOrder 2 (Num 150) 70 Buy])] [])
            [mkTrade (Num 140) 30 1 2] /\
  (traded_total [mkTrade (Num 140) 30 1 2] +
   side_total [(Num 150, [mkOrder 2 (Num 150) 70 Buy])] = 100 + side_total [])%N /\
  (side_total [] + traded_total [mkTrade (Num 140) 30 1 2] =
   side_total [(Num 140, [mkOrder 1 (Num 140) 30 Sell])])%N.
Proof.
  split; [reflexivity|].
  exact (quantity_conserved (mkBook [] [(Num 140, [mkOrder 1 (Num 140) 30 Sell])])
           (mkOrder 2 (Num 150) 100 Buy) _ _ eq_refl).
Defined.

(** C10: an order with [quantity == 0] is a silent no-op: [add_order]
    returns [()] without error, both sides are left exactly as they were and
    no trade is executed. *)
Theorem zero_quantity_noop b o :
  quantity o = 0%N ->
  add_order b o = Completed b [] /\ add_order_ret b o = Some tt.
Proof.
  intros Hq; pose proof (add_order_zero_qty b o Hq) as H.
  unfold add_order_ret; rewrite H; auto.
Qed.

Lemma zero_quantity_noop_witness :
  quantity (mkOrder 3 (Num 101) 0 Buy) = 0%N /\
  add_order (mkBook [] [(Num 100, [mkOrder 1 (Num 100) 5 Sell])])
            (mkOrder 3 (Num 101) 0 Buy) =
  Completed (mkBook [] [(Num 100, [mkOrder 1 (Num 100) 5 Sell])]) [] /\
  add_order_ret (mkBook [] [(Num 100, [mkOrder 1 (Num 100) 5 Sell])])
                (mkOrder 3 (Num 101) 0 Buy) = Some tt.
Proof.
  split; [reflexivity|].
  apply zero_quantity_noop; reflexivity.
Defined.

Lemma side_ok_levels m : side_ok m -> levels_nonempty m /\ resting_pos m.
Proof.
  intros [_ Hl]; split; eapply Forall_impl; try exact Hl; intros e [Hne Hf]; auto.
  eapply Forall_impl; [|exact Hf]; intros o [Hq _]; auto.
Qed.

(** C3: the book is never crossed.  In every book reachable from the empty
    book by [add_order] calls with valid orders, if both sides are
    non-empty then the best bid is strictly below the best ask. *)
Theorem no_crossed_book b :
  reachable valid_order b ->
  match best_bid b, best_ask b with
  | Some x, Some y => f64_lt x y = true
  | _, _ => True
  end.
Proof.
  intros Hr.
  destruct (reachable_book_ok _ _ Hr) as (_ & _ & Hsep).
  pose proof (reachable_keys_valid _ Hr) as Hv.
  unfold keys_valid in Hv; rewrite Forall_forall in Hv.
  unfold best_bid, best_ask.
  destruct (last_entry (bids b)) as [[pre [x q]]|] eqn:Hl; [|exact I].
  destruct (asks b) as [|[y q2] r] eqn:Ha; [exact I|].
  apply last_entry_some in Hl.
  assert (Hx : In x (keys (bids b))) by (rewrite Hl; apply in_keys_last).
  assert (Hy : In y (keys (asks b))) by (rewrite Ha; left; reflexivity).
  pose proof (Hsep x y Hx Hy) as Hlt.
  pose proof (Hv x (in_or_app _ _ _ (or_introl Hx))) as Vx.
  pose proof (Hv y (in_or_app (keys (bids b)) (keys ((y, q2) :: r)) y (or_intror (or_introl eq_refl)))) as Vy.
  destruct x as [zx|]; [|discriminate]; destruct y as [zy|]; [|discriminate].
  unfold of_lt in Hlt; simpl in Hlt; unfold f64_lt; simpl.
  apply Z.ltb_lt, Z.compare_lt_iff; exact Hlt.
Qed.

Lemma no_crossed_book_witness :
  reachable valid_order
    (mkBook [(Num 100, [mkOrder 1 (Num 100) 50 Buy])]
            [(Num 101, [mkOrder 2 (Num 101) 30 Sell])]) /\
  f64_lt (Num 100) (Num 101) = true.
Proof.
  assert (H : reachable valid_order
                (mkBook [(Num 100, [mkOrder 1 (Num 100) 50 Buy])]
                        [(Num 101, [mkOrder 2 (Num 101) 30 Sell])])).
  { apply (reach_add _ (mkBook [(Num 100, [mkOrder 1 (Num 100) 50 Buy])] [])
             (mkOrder 2 (Num 101) 30 Sell) _ []).
    - apply (reach_add _ new_book (mkOrder 1 (Num 100) 50 Buy) _ []);
        [apply reach_new | split; reflexivity | reflexivity].
    - split; reflexivity.
    - reflexivity. }
  split; [exact H | exact (no_crossed_book _ H)].
Defined.

(** C5: price-then-time priority.  Each trade of [match_bid] reduces or
    removes the front (oldest) order of the lowest ask level, each trade of
    [match_ask] the front order of the highest bid level, and no other
    order or level is touched; resting appends an order at the back of its
    level, so the front of a level is its oldest order. *)
Theorem price_time_priority :
  (forall asks o asks' o' t,
     sorted_keys asks -> match_bid_iter asks o = Continue asks' o' t ->
     exists k best tl rest,
       asks = (k, best :: tl) :: rest /\
       Forall (fun e => of_lt k (fst e)) rest /\
       maker_order_id t = _id best /\ tr_price t = k /\
       ((asks' = rest /\ tl = []) \/
        asks' = (k, tl) :: rest \/
        asks' = (k, set_quantity best (quantity best - tr_qty t) :: tl) :: rest)) /\
  (forall bids o bids' o' t,
     sorted_keys bids -> match_ask_iter bids o = Continue bids' o' t ->
     exists pre k best tl,
       bids = pre ++ [(k, best :: tl)] /\
       Forall (fun e => of_lt (fst e) k) pre /\
       maker_order_id t = _id best /\ tr_price t = k /\
       ((bids' = pre /\ tl = []) \/
        bids' = pre ++ [(k, tl)] \/
        bids' = pre ++ [(k, set_quantity best (quantity best - tr_qty t) :: tl)])) /\
  (forall m k o, sorted_keys m ->
     level_of (entry_push_back m k o) k = level_of m k ++ [o]).
Proof.
  split; [|split; [|exact level_of_push]].
  - intros asks o asks' o' t Hs Hi.
    destruct (match_bid_iter_continue _ _ _ _ _ Hi)
      as (k & best & tl & rest & -> & _ & Hpr & _ & Hmk & _ & _ & Ha).
    exists k, best, tl, rest; split; [reflexivity|].
    split; [exact (proj2 (sorted_keys_cons_inv _ _ Hs))|].
    split; [exact Hmk|]; split; [exact Hpr|].
    cbv zeta in Ha; revert Ha.
    destruct (N.eqb_spec (quantity best - tr_qty t) 0);
      [destruct tl as [|x r]|]; simpl; intros ->; auto.
  - intros bids o bids' o' t Hs Hi.
    destruct (match_ask_iter_continue _ _ _ _ _ Hi)
      as (pre & k & best & tl & -> & _ & Hpr & _ & Hmk & _ & _ & Ha).
    exists pre, k, best, tl; split; [reflexivity|].
    split; [exact (proj2 (sorted_keys_app_last_inv _ _ Hs))|].
    split; [exact Hmk|]; split; [exact Hpr|].
    cbv zeta in Ha; revert Ha.
    destruct (N.eqb_spec (quantity best - tr_qty t) 0);
      [destruct tl as [|x r]|]; simpl; intros ->; auto.
Qed.

Lemma price_time_priority_witness :
  sorted_keys [(Num 140, [mkOrder 2 (Num 140) 100 Sell]);
               (Num 150, [mkOrder 1 (Num 150) 100 Sell])] /\
  match_bid_iter [(Num 140, [mkOrder 2 (Num 140) 100 Sell]);
                  (Num 150, [mkOrder 1 (Num 150) 100 Sell])]
                 (mkOrder 3 (Num 150) 100 Buy) =
  Continue [(Num 150, [mkOrder 1 (Num 150) 100 Sell])]
           (mkOrder 3 (Num 150) 0 Buy) (mkTrade (Num 140) 100 2 3) /\
  level_of (entry_push_back [(Num 100, [mkOrder 1 (Num 100) 5 Buy])] (Num 100)
              (mkOrder 2 (Num 100) 7 Buy)) (Num 100) =
  [mkOrder 1 (Num 100) 5 Buy; mkOrder 2 (Num 100) 7 Buy] /\
  exists k best tl rest,
    [(Num 140, [mkOrder 2 (Num 140) 100 Sell]);
     (Num 150, [mkOrder 1 (Num 150) 100 Sell])] = (k, best :: tl) :: rest /\
    Forall (fun e => of_lt k (fst e)) rest /\
    maker_order_id (mkTrade (Num 140) 100 2 3) = _id best /\
    tr_price (mkTrade (Num 140) 100 2 3) = k /\
    (([(Num 150, [mkOrder 1 (Num 150) 100 Sell])] = rest /\ tl = []) \/
     [(Num 150, [mkOrder 1 (Num 150) 100 Sell])] = (k, tl) :: rest \/
     [(Num 150, [mkOrder 1 (Num 150) 100 Sell])] =
       (k, set_quantity best (quantity best - tr_qty (mkTrade (Num 140) 100 2 3)) :: tl)
         :: rest).
Proof.
  assert (Hs : sorted_keys [(Num 140, [mkOrder 2 (Num 140) 100 Sell]);
                            (Num 150, [mkOrder 1 (Num 150) 100 Sell])]).
  { constructor; [apply SSorted_cons; constructor|].
    constructor; [reflexivity | constructor]. }
  split; [exact Hs|]; split; [reflexivity|]; split; [reflexivity|].
  exact (proj1 price_time_priority _ (mkOrder 3 (Num 150) 100 Buy) _ _ _ Hs eq_refl).
Defined.

(** C6 (counterexample): for an incoming buy with a NaN price, the raw
    test [best_ask_price > order.price] is false, so the order trades
    against the best ask although [best_ask_price <= order.price] is false
    too. *)
Lemma C6_nan_price_crosses :
  ~ (forall k q rest o, q <> [] ->
       is_trade (match_bid_iter ((k, q) :: rest) o) = f64_le k (price o)).
Proof.
  intros H.
  specialize (H (Num 100) [mkOrder 1 (Num 100) 50 Sell] [] (mkOrder 2 NaN 70 Buy)
                ltac:(discriminate)).
  vm_compute in H; discriminate.
Qed.

(** C6 (amended): an incoming buy trades at the best ask level exactly when
    [best_ask_price > order.price] is false as an [f64] comparison, and an
    incoming sell at the best bid level exactly when
    [best_bid_price < order.price] is false; when the test holds the loop
    stops with the book unchanged.  For non-NaN prices these are exactly
    [best_ask_price <= order.price] and [best_bid_price >= order.price]
    (so equal prices cross); a NaN on either side never stops the loop. *)
Theorem crossing_thresholds :
  (forall k q rest o, q <> [] ->
     is_trade (match_bid_iter ((k, q) :: rest) o) = negb (f64_gt k (price o)) /\
     (f64_gt k (price o) = true -> (0 < quantity o)%N -> forall fuel,
        match_bid_loop (S fuel) ((k, q) :: rest) o = Done ((k, q) :: rest) o [])) /\
  (forall pre k q o, q <> [] ->
     is_trade (match_ask_iter (pre ++ [(k, q)]) o) = negb (f64_lt k (price o)) /\
     (f64_lt k (price o) = true -> (0 < quantity o)%N -> forall fuel,
        match_ask_loop (S fuel) (pre ++ [(k, q)]) o = Done (pre ++ [(k, q)]) o [])) /\
  (forall x y, negb (f64_gt (Num x) (Num y)) = f64_le (Num x) (Num y) /\
               negb (f64_lt (Num x) (Num y)) = f64_ge (Num x) (Num y)).
Proof.
  split; [|split].
  - intros k q rest o Hq.
    destruct (f64_gt k (price o)) eqn:Hgt.
    + split; [unfold match_bid_iter; rewrite Hgt; reflexivity|].
      intros _ Hpos fuel; cbn [match_bid_loop].
      rewrite (proj2 (N.ltb_lt _ _) Hpos); unfold match_bid_iter; rewrite Hgt; reflexivity.
    + split; [|discriminate].
      unfold match_bid_iter; rewrite Hgt; cbv zeta.
      destruct q as [|best tl]; [contradiction|].
      rewrite u64_sub_min_l, u64_sub_min_r; reflexivity.
  - intros pre k q o Hq.
    destruct (f64_lt k (price o)) eqn:Hlt.
    + split; [unfold match_ask_iter; rewrite last_entry_app, Hlt; reflexivity|].
      intros _ Hpos fuel; cbn [match_ask_loop].
      rewrite (proj2 (N.ltb_lt _ _) Hpos); unfold match_ask_iter.
      rewrite last_entry_app, Hlt; reflexivity.
    + split; [|discriminate].
      unfold match_ask_iter; rewrite last_entry_app, Hlt; cbv zeta.
      destruct q as [|best tl]; [contradiction|].
      rewrite u64_sub_min_l, u64_sub_min_r; reflexivity.
  - intros x y; unfold f64_ge, f64_lt; simpl.
    rewrite !Z.leb_antisym; split; reflexivity.
Qed.

Lemma crossing_thresholds_witness :
  ([mkOrder 1 (Num 100) 50 Sell] <> [] /\
   is_trade (match_bid_iter [(Num 100, [mkOrder 1 (Num 100) 50 Sell])]
                            (mkOrder 2 (Num 100) 20 Buy)) =
   negb (f64_gt (Num 100) (Num 100))) /\
  ([mkOrder 3 (Num 99) 10 Buy] <> [] /\
   f64_lt (Num 99) (Num 100) = true /\ (0 < 5)%N /\
   match_ask_loop 3 ([] ++ [(Num 99, [mkOrder 3 (Num 99) 10 Buy])])
                  (mkOrder 4 (Num 100) 5 Sell) =
   Done ([] ++ [(Num 99, [mkOrder 3 (Num 99) 10 Buy])]) (mkOrder 4 (Num 100) 5 Sell) []).
Proof.
  split.
  - split; [discriminate|].
    exact (proj1 (proj1 crossing_thresholds (Num 100) [mkOrder 1 (Num 100) 50 Sell] []
                    (mkOrder 2 (Num 100) 20 Buy) ltac:(discriminate))).
  - split; [discriminate|]; split; [reflexivity|]; split; [reflexivity|].
    exact (proj2 (proj1 (proj2 crossing_thresholds) [] (Num 99) [mkOrder 3 (Num 99) 10 Buy]
                    (mkOrder 4 (Num 100) 5 Sell) ltac:(discriminate))
                 eq_refl eq_refl 2%nat).
Defined.

(** C7: after every [add_order] call (from the empty book), no price level
    of either side is empty and every resting order has [quantity > 0]. *)
Theorem book_well_formed b :
  reachable (fun _ => True) b ->
  levels_nonempty (bids b) /\ levels_nonempty (asks b) /\
  resting_pos (bids b) /\ resting_pos (asks b).
Proof.
  intros Hr; destruct (reachable_book_ok _ _ Hr) as (Hb & Ha & _).
  destruct (side_ok_levels _ Hb), (side_ok_levels _ Ha); auto.
Qed.

Lemma book_well_formed_witness :
  reachable (fun _ => True)
    (mkBook [] [(Num 150, [mkOrder 1 (Num 150) 50 Sell])]) /\
  levels_nonempty [] /\ levels_nonempty [(Num 150, [mkOrder 1 (Num 150) 50 Sell])] /\
  resting_pos [] /\ resting_pos [(Num 150, [mkOrder 1 (Num 150) 50 Sell])].
Proof.
  assert (H : reachable (fun _ => True)
                (mkBook [] [(Num 150, [mkOrder 1 (Num 150) 50 Sell])])).
  { apply (reach_add _ (mkBook [] [(Num 150, [mkOrder 1 (Num 150) 100 Sell])])
             (mkOrder 2 (Num 150) 50 Buy) _ [mkTrade (Num 150) 50 1 2]).
    - apply (reach_add _ new_book (mkOrder 1 (Num 150) 100 Sell) _ []);
        [apply reach_new | exact I | reflexivity].
    - exact I.
    - reflexivity. }
  split; [exact H | exact (book_well_formed _ H)].
Defined.

(** C8: termination of the matching loops.  When every resting order has a
    positive quantity, each iteration that does not stop trades at least 1
    and strictly decreases the incoming quantity (keeping resting
    quantities positive), so [order.quantity + 1] iterations suffice; and
    [add_order] never runs out of iterations. *)
Theorem matching_terminates :
  (forall asks o asks' o' t,
     resting_pos asks -> (0 < quantity o)%N ->
     match_bid_iter asks o = Continue asks' o' t ->
     resting_pos asks' /\ (1 <= tr_qty t)%N /\ (quantity o' < quantity o)%N) /\
  (forall bids o bids' o' t,
     resting_pos bids -> (0 < quantity o)%N ->
     match_ask_iter bids o = Continue bids' o' t ->
     resting_pos bids' /\ (1 <= tr_qty t)%N /\ (quantity o' < quantity o)%N) /\
  (forall b o,
     resting_pos (asks b) -> resting_pos (bids b) ->
     match side o with
     | Buy => match_bid_loop (S (N.to_nat (quantity o))) (asks b) o <> OutOfFuel
     | Sell => match_ask_loop (S (N.to_nat (quantity o))) (bids b) o <> OutOfFuel
     end /\ add_order b o <> Diverged).
Proof.
  split; [exact match_bid_iter_pos|]; split; [exact match_ask_iter_pos|].
  intros b o Ha Hb; split; [|apply add_order_not_diverged].
  destruct (side o); [apply match_bid_loop_pos_fuel | apply match_ask_loop_pos_fuel];
    auto; lia.
Qed.

Lemma matching_terminates_witness :
  resting_pos [(Num 100, [mkOrder 1 (Num 100) 5 Sell; mkOrder 2 (Num 100) 7 Sell])] /\
  resting_pos [] /\
  match_bid_loop 21 [(Num 100, [mkOrder 1 (Num 100) 5 Sell; mkOrder 2 (Num 100) 7 Sell])]
                 (mkOrder 3 (Num 101) 20 Buy) <> OutOfFuel /\
  add_order (mkBook [] [(Num 100, [mkOrder 1 (Num 100) 5 Sell; mkOrder 2 (Num 100) 7 Sell])])
            (mkOrder 3 (Num 101) 20 Buy) <> Diverged.
Proof.
  assert (Ha : resting_pos [(Num 100, [mkOrder 1 (Num 100) 5 Sell; mkOrder 2 (Num 100) 7 Sell])]).
  { constructor; [|constructor]; simpl.
    constructor; [reflexivity|]; constructor; [reflexivity | constructor]. }
  assert (Hb : resting_pos []) by constructor.
  split; [exact Ha|]; split; [exact Hb|].
  exact (proj2 (proj2 matching_terminates)
           (mkBook [] [(Num 100, [mkOrder 1 (Num 100) 5 Sell; mkOrder 2 (Num 100) 7 Sell])])
           (mkOrder 3 (Num 101) 20 Buy) Ha Hb).
Defined.

(** C9: panic freedom.  In every book reachable from the empty book, every
    level is a non-empty queue, so the [front_mut().unwrap()] of either
    loop never meets [None] (nor does the [u64] subtraction underflow), and
    [add_order] completes on every order. *)
Theorem no_panic_reachable b :
  reachable (fun _ => True) b ->
  levels_nonempty (bids b) /\ levels_nonempty (asks b) /\
  (forall o, match_bid_iter (asks b) o <> Panic /\ match_ask_iter (bids b) o <> Panic) /\
  (forall o, exists b' ts, add_order b o = Completed b' ts).
Proof.
  intros Hr; pose proof (reachable_book_ok _ _ Hr) as Hok.
  destruct Hok as (Hb & Ha & Hs).
  split; [apply (side_ok_levels _ Hb)|]; split; [apply (side_ok_levels _ Ha)|].
  split.
  - intros o; split; [apply match_bid_iter_no_panic | apply match_ask_iter_no_panic]; auto.
  - intros o; apply add_order_completes; split; [|split]; auto.
Qed.

Lemma no_panic_reachable_witness :
  reachable (fun _ => True) (mkBook [(Num 100, [mkOrder 1 (Num 100) 50 Buy])] []) /\
  exists b' ts,
    add_order (mkBook [(Num 100, [mkOrder 1 (Num 100) 50 Buy])] [])
              (mkOrder 2 (Num 90) 80 Sell) = Completed b' ts.
Proof.
  assert (H : reachable (fun _ => True)
                (mkBook [(Num 100, [mkOrder 1 (Num 100) 50 Buy])] [])).
  { apply (reach_add _ new_book (mkOrder 1 (Num 100) 50 Buy) _ []);
      [apply reach_new | exact I | reflexivity]. }
  split; [exact H|].
  exact (proj2 (proj2 (proj2 (no_panic_reachable _ H))) (mkOrder 2 (Num 90) 80 Sell)).
Defined.

(** * Further properties of the engine *)

(** ** Helpers *)

Lemma set_quantity_twice o a c : set_quantity (set_quantity o a) c = set_quantity o c.
Proof. destruct o; reflexivity. Qed.

Lemma of_lt_cmp_gt a b : of_lt a b -> of_cmp b a = Gt.
Proof.
  unfold of_lt; destruct a, b; simpl; try discriminate; auto.
  rewrite Z.compare_lt_iff, Z.compare_gt_iff; lia.
Qed.

Lemma f64_gt_irrefl p : f64_gt p p = false.
Proof. destruct p; simpl; [apply Z.ltb_irrefl | reflexivity]. Qed.

Lemma f64_gt_nan k : f64_gt k NaN = false.
Proof. destruct k; reflexivity. Qed.

(** How the loop of [match_bid] ends, on any ask side: the incoming order
    keeps its fields but [quantity], the loop stops only when the order is
    filled or the best ask is above its price, and no trade is above it. *)
Lemma match_bid_loop_exit fuel asks o asks' o' ts :
  match_bid_loop fuel asks o = Done asks' o' ts ->
  o' = set_quantity o (quantity o') /\
  ((quantity o' = 0)%N \/ bid_stopped asks' (price o)) /\
  Forall (fun t => f64_gt (tr_price t) (price o) = false) ts.
Proof.
  revert asks o ts; induction fuel as [|fuel IH]; intros asks o ts Hl; [discriminate|].
  simpl in Hl; destruct (N.ltb_spec 0 (quantity o)) as [Hq|Hq].
  - destruct (match_bid_iter asks o) as [|m o1 t|] eqn:Hi; try discriminate.
    + injection Hl; intros; subst.
      split; [destruct o'; reflexivity|].
      split; [right; apply match_bid_iter_break; auto | constructor].
    + destruct (match_bid_loop fuel m o1) as [m2 o2 ts2| |] eqn:Hl2; try discriminate.
      injection Hl; intros; subst.
      destruct (match_bid_iter_continue _ _ _ _ _ Hi)
        as (k & best & tl & rest & _ & Hgt & Hpr & _ & _ & _ & Ho & _).
      destruct (IH _ _ _ Hl2) as (Ho2 & Hst & Hf).
      subst o1; cbn [price set_quantity] in Hst, Hf.
      split; [rewrite Ho2 at 1; apply set_quantity_twice|].
      split; [exact Hst|]; constructor; [rewrite Hpr; exact Hgt | exact Hf].
  - injection Hl; intros; subst.
    split; [destruct o'; reflexivity|]; split; [left; lia | constructor].
Qed.

Lemma match_ask_loop_exit fuel bids o bids' o' ts :
  match_ask_loop fuel bids o = Done bids' o' ts ->
  o' = set_quantity o (quantity o') /\
  ((quantity o' = 0)%N \/ ask_stopped bids' (price o)) /\
  Forall (fun t => f64_lt (tr_price t) (price o) = false) ts.
Proof.
  revert bids o ts; induction fuel as [|fuel IH]; intros bids o ts Hl; [discriminate|].
  simpl in Hl; destruct (N.ltb_spec 0 (quantity o)) as [Hq|Hq].
  - destruct (match_ask_iter bids o) as [|m o1 t|] eqn:Hi; try discriminate.
    + injection Hl; intros; subst.
      split; [destruct o'; reflexivity|].
      split; [right; apply match_ask_iter_break; auto | constructor].
    + destruct (match_ask_loop fuel m o1) as [m2 o2 ts2| |] eqn:Hl2; try discriminate.
      injection Hl; intros; subst.
      destruct (match_ask_iter_continue _ _ _ _ _ Hi)
        as (pre & k & best & tl & _ & Hlt & Hpr & _ & _ & _ & Ho & _).
      destruct (IH _ _ _ Hl2) as (Ho2 & Hst & Hf).
      subst o1; cbn [price set_quantity] in Hst, Hf.
      split; [rewrite Ho2 at 1; apply set_quantity_twice|].
      split; [exact Hst|]; constructor; [rewrite Hpr; exact Hlt | exact Hf].
  - injection Hl; intros; subst.
    split; [destruct o'; reflexivity|]; split; [left; lia | constructor].
Qed.

(** The loop of [match_bid] walks up the ask side: trade prices are keys of
    the ask side and never decrease. *)
Lemma match_bid_loop_prices fuel asks o asks' o' ts :
  side_ok asks -> match_bid_loop fuel asks o = Done asks' o' ts ->
  Forall (fun t => In (tr_price t) (keys asks)) ts /\
  Sorted (fun x y => of_cmp x y <> Gt) (map tr_price ts).
Proof.
  revert asks o ts; induction fuel as [|fuel IH]; intros asks o ts Hok Hl; [discriminate|].
  simpl in Hl; destruct (0 <? quantity o)%N.
  - destruct (match_bid_iter asks o) as [|m o1 t|] eqn:Hi; try discriminate.
    + injection Hl; intros; subst; split; constructor.
    + destruct (match_bid_loop fuel m o1) as [m2 o2 ts2| |] eqn:Hl2; try discriminate.
      injection Hl; intros; subst.
      destruct (match_bid_iter_side_ok _ _ _ _ _ Hok Hi) as [Hok1 Hinc].
      destruct (match_bid_iter_continue _ _ _ _ _ Hi)
        as (k & best & tl & rest & Ha & _ & Hpr & _).
      destruct (IH _ _ _ Hok1 Hl2) as [Hin Hs].
      assert (Hk : forall p, In p (keys asks) -> of_cmp k p <> Gt).
      { intros p Hp; rewrite Ha in Hok, Hp.
        destruct (sorted_keys_head_min _ _ _ _ (proj1 Hok) Hp) as [<-|Hlt].
        - rewrite of_cmp_refl; discriminate.
        - unfold of_lt in Hlt; rewrite Hlt; discriminate. }
      split.
      * constructor; [rewrite Hpr, Ha; simpl; left; reflexivity|].
        eapply Forall_impl; [|exact Hin]; intros t' Ht'; apply Hinc; exact Ht'.
      * simpl; constructor; [exact Hs|].
        destruct ts2 as [|t2 ts2]; simpl; constructor.
        rewrite Hpr; apply Hk, Hinc; inversion Hin; auto.
  - injection Hl; intros; subst; split; constructor.
Qed.

(** The loop of [match_ask] walks down the bid side. *)
Lemma match_ask_loop_prices fuel bids o bids' o' ts :
  side_ok bids -> match_ask_loop fuel bids o = Done bids' o' ts ->
  Forall (fun t => In (tr_price t) (keys bids)) ts /\
  Sorted (fun x y => of_cmp x y <> Lt) (map tr_price ts).
Proof.
  revert bids o ts; induction fuel as [|fuel IH]; intros bids o ts Hok Hl; [discriminate|].
  simpl in Hl; destruct (0 <? quantity o)%N.
  - destruct (match_ask_iter bids o) as [|m o1 t|] eqn:Hi; try discriminate.
    + injection Hl; intros; subst; split; constructor.
    + destruct (match_ask_loop fuel m o1) as [m2 o2 ts2| |] eqn:Hl2; try discriminate.
      injection Hl; intros; subst.
      destruct (match_ask_iter_side_ok _ _ _ _ _ Hok Hi) as [Hok1 Hinc].
      destruct (match_ask_iter_continue _ _ _ _ _ Hi)
        as (pre & k & best & tl & Hb & _ & Hpr & _).
      destruct (IH _ _ _ Hok1 Hl2) as [Hin Hs].
      assert (Hk : forall p, In p (keys bids) -> of_cmp k p <> Lt).
      { intros p Hp; rewrite Hb in Hok, Hp.
        destruct (sorted_keys_last_max _ _ _ _ (proj1 Hok) Hp) as [->|Hlt].
        - rewrite of_cmp_refl; discriminate.
        - rewrite (of_lt_cmp_gt _ _ Hlt); discriminate. }
      split.
      * constructor; [rewrite Hpr, Hb; apply in_keys_last|].
        eapply Forall_impl; [|exact Hin]; intros t' Ht'; apply Hinc; exact Ht'.
      * simpl; constructor; [exact Hs|].
        destruct ts2 as [|t2 ts2]; simpl; constructor.
        rewrite Hpr; apply Hk, Hinc; inversion Hin; auto.
  - injection Hl; intros; subst; split; constructor.
Qed.

Lemma bid_priority_last pre k q : bid_priority (pre ++ [(k, q)]) = q ++ bid_priority pre.
Proof. unfold bid_priority; rewrite rev_app_distr; reflexivity. Qed.

(** One trade against the front order [best] of the level [(k, best :: tl)],
    seen on the resting orders in priority order. *)
Lemma front_trade_consumed k best tl later after ts qo t :
  order_ok k best -> (0 < qo)%N ->
  tr_price t = k -> tr_qty t = N.min qo (quantity best) ->
  maker_order_id t = _id best ->
  (quantity best - tr_qty t =? 0)%N = true ->
  consumed (tl ++ later) after ts ->
  consumed (best :: tl ++ later) after (t :: ts).
Proof.
  intros [Hqb Hpb] Hq Hpr Htq Hmk Hz (filled & rest & Hsplit & Hcase).
  apply N.eqb_eq in Hz.
  assert (Hft : fill t = full_fill best).
  { unfold fill, full_fill; rewrite Hmk, Hpr, Hpb; f_equal; lia. }
  exists (best :: filled), rest; split; [rewrite Hsplit; reflexivity|].
  destruct Hcase as [[Hm Ha]|(x & r & q & Hr & Hqx & Hm & Ha)].
  - left; split; [simpl; rewrite Hft, Hm; reflexivity | exact Ha].
  - right; exists x, r, q; split; [exact Hr|]; split; [exact Hqx|].
    split; [simpl; rewrite Hft, Hm; reflexivity | exact Ha].
Qed.

Lemma front_trade_partial k best tl later qo t :
  order_ok k best -> (0 < qo)%N ->
  tr_price t = k -> tr_qty t = N.min qo (quantity best) ->
  maker_order_id t = _id best ->
  (quantity best - tr_qty t =? 0)%N = false ->
  consumed (best :: tl ++ later)
           (set_quantity best (quantity best - tr_qty t) :: tl ++ later) [t].
Proof.
  intros [Hqb Hpb] Hq Hpr Htq Hmk Hz; apply N.eqb_neq in Hz.
  exists [], (best :: tl ++ later); split; [reflexivity|].
  right; exists best, (tl ++ later), (quantity best - tr_qty t)%N.
  split; [reflexivity|]; split; [lia|]; split; [|reflexivity].
  simpl; unfold fill; rewrite Hmk, Hpr, Hpb; do 2 f_equal; lia.
Qed.

(** After a partial fill of the front order, the incoming order is filled
    and the loop ends at once. *)
Lemma partial_fill_filled qo qb d :
  d = N.min qo qb -> (qb - d =? 0)%N = false -> (qo - d = 0)%N.
Proof. intros -> Hz; apply N.eqb_neq in Hz; lia. Qed.

Lemma match_bid_loop_consumed fuel asks o asks' o' ts :
  side_ok asks -> match_bid_loop fuel asks o = Done asks' o' ts ->
  consumed (side_orders asks) (side_orders asks') ts.
Proof.
  revert asks o ts; induction fuel as [|fuel IH]; intros asks o ts Hok Hl; [discriminate|].
  simpl in Hl; destruct (N.ltb_spec 0 (quantity o)) as [Hq|Hq].
  - destruct (match_bid_iter asks o) as [|m o1 t|] eqn:Hi; try discriminate.
    + injection Hl; intros; subst.
      exists [], (side_orders asks'); split; [reflexivity | left; split; reflexivity].
    + destruct (match_bid_loop fuel m o1) as [m2 o2 ts2| |] eqn:Hl2; try discriminate.
      injection Hl; intros; subst.
      destruct (match_bid_iter_side_ok _ _ _ _ _ Hok Hi) as [Hok1 _].
      destruct (match_bid_iter_continue _ _ _ _ _ Hi)
        as (k & best & tl & rest & Ha & _ & Hpr & Htq & Hmk & _ & Ho1 & Hm).
      subst asks.
      pose proof (Forall_inv (proj2 (level_ok_of_side_head _ _ _ Hok))) as Hb.
      change (side_orders ((k, best :: tl) :: rest))
        with (best :: tl ++ side_orders rest).
      cbv zeta in Hm.
      destruct (quantity best - tr_qty t =? 0)%N eqn:Hz.
      * apply (front_trade_consumed k best tl _ _ _ (quantity o)); auto.
        assert (Hso : side_orders m = tl ++ side_orders rest)
          by (subst m; destruct tl; reflexivity).
        rewrite <- Hso; eapply IH; eauto.
      * pose proof (partial_fill_filled _ _ _ Htq Hz) as H0.
        destruct fuel as [|fuel]; [discriminate|].
        cbn [match_bid_loop] in Hl2; rewrite Ho1 in Hl2; cbn [quantity set_quantity] in Hl2.
        rewrite H0 in Hl2; injection Hl2; clear Hl2; intros <- <- <-.
        rewrite Hm.
        exact (front_trade_partial k best tl (side_orders rest) (quantity o) t
                 Hb Hq Hpr Htq Hmk Hz).
  - injection Hl; intros; subst.
    exists [], (side_orders asks'); split; [reflexivity | left; split; reflexivity].
Qed.

Lemma match_ask_loop_consumed fuel bids o bids' o' ts :
  side_ok bids -> match_ask_loop fuel bids o = Done bids' o' ts ->
  consumed (bid_priority bids) (bid_priority bids') ts.
Proof.
  revert bids o ts; induction fuel as [|fuel IH]; intros bids o ts Hok Hl; [discriminate|].
  simpl in Hl; destruct (N.ltb_spec 0 (quantity o)) as [Hq|Hq].
  - destruct (match_ask_iter bids o) as [|m o1 t|] eqn:Hi; try discriminate.
    + injection Hl; intros; subst.
      exists [], (bid_priority bids'); split; [reflexivity | left; split; reflexivity].
    + destruct (match_ask_loop fuel m o1) as [m2 o2 ts2| |] eqn:Hl2; try discriminate.
      injection Hl; intros; subst.
      destruct (match_ask_iter_side_ok _ _ _ _ _ Hok Hi) as [Hok1 _].
      destruct (match_ask_iter_continue _ _ _ _ _ Hi)
        as (pre & k & best & tl & Hb & _ & Hpr & Htq & Hmk & _ & Ho1 & Hm).
      subst bids.
      pose proof (Forall_inv (proj2 (level_ok_of_side_last _ _ _ Hok))) as Hbo.
      rewrite bid_priority_last; change ((best :: tl) ++ bid_priority pre)
        with (best :: tl ++ bid_priority pre).
      cbv zeta in Hm.
      destruct (quantity best - tr_qty t =? 0)%N eqn:Hz.
      * apply (front_trade_consumed k best tl _ _ _ (quantity o)); auto.
        assert (Hso : bid_priority m = tl ++ bid_priority pre)
          by (subst m; destruct tl; [reflexivity | apply bid_priority_last]).
        rewrite <- Hso; eapply IH; eauto.
      * pose proof (partial_fill_filled _ _ _ Htq Hz) as H0.
        destruct fuel as [|fuel]; [discriminate|].
        cbn [match_ask_loop] in Hl2; rewrite Ho1 in Hl2; cbn [quantity set_quantity] in Hl2.
        rewrite H0 in Hl2; injection Hl2; clear Hl2; intros <- <- <-.
        rewrite Hm, bid_priority_last.
        exact (front_trade_partial k best tl (bid_priority pre) (quantity o) t
                 Hbo Hq Hpr Htq Hmk Hz).
  - injection Hl; intros; subst.
    exists [], (bid_priority bids'); split; [reflexivity | left; split; reflexivity].
Qed.

Lemma consumed_length before after ts :
  consumed before after ts -> (length ts <= length before)%nat.
Proof.
  intros (filled & rest & -> & [[Hm _]|(x & r & q & -> & _ & Hm & _)]);
    apply (f_equal (@length _)) in Hm; rewrite length_app.
  - rewrite !length_map in Hm; lia.
  - rewrite length_app, !length_map in Hm; simpl in *; lia.
Qed.

Lemma count_orders_side_orders m : count_orders m = length (side_orders m).
Proof.
  induction m as [|e m IH]; simpl; [reflexivity|].
  unfold side_orders in *; simpl; rewrite length_app, IH; reflexivity.
Qed.

Lemma count_orders_rev m : count_orders (rev m) = count_orders m.
Proof.
  induction m as [|e m IH]; simpl; [reflexivity|].
  rewrite count_orders_app, IH; simpl; lia.
Qed.

Lemma count_orders_bid_priority m : count_orders m = length (bid_priority m).
Proof.
  unfold bid_priority; rewrite <- count_orders_rev, count_orders_side_orders; reflexivity.
Qed.

(** [entry(k).or_default().push_back(o)] leaves every other level alone. *)
Lemma level_of_push_other m k o k2 :
  k2 <> k -> level_of (entry_push_back m k o) k2 = level_of m k2.
Proof.
  intros Hne; induction m as [|[k' q] rest IH]; simpl.
  - destruct (of_cmp k2 k) eqn:Hc; auto; apply of_cmp_eq in Hc; contradiction.
  - destruct (of_cmp k k') eqn:Hc; simpl.
    + apply of_cmp_eq in Hc; subst k'.
      destruct (of_cmp k2 k) eqn:Hc2; auto; apply of_cmp_eq in Hc2; contradiction.
    + destruct (of_cmp k2 k) eqn:Hc2; auto; apply of_cmp_eq in Hc2; contradiction.
    + rewrite IH; reflexivity.
Qed.




(** Proves [book_ok] of a concrete book. *)
Ltac book_ok_tac :=
  repeat match goal with
  | |- book_ok _ => split; [|split]
  | |- side_ok _ => split
  | |- sorted_keys _ => unfold sorted_keys
  | |- StronglySorted _ _ => constructor
  | |- Forall _ _ => constructor
  | |- level_ok _ => split; [discriminate|]
  | |- order_ok _ _ => split; reflexivity
  | |- of_lt _ _ => reflexivity
  | |- separated _ =>
      let kb := fresh "kb" in let ka := fresh "ka" in
      let Hb := fresh "Hb" in let Ha := fresh "Ha" in
      intros kb ka Hb Ha; simpl in Hb, Ha;
      repeat (destruct Hb as [<-|Hb]); try contradiction;
      repeat (destruct Ha as [<-|Ha]); try contradiction;
      reflexivity
  end.

(** ** Properties *)

(** A buy never trades above its limit price and a sell never below it:
    every trade price fails the [f64] test that stops the loop. *)
Theorem trades_within_limit b o b' ts :
  add_order b o = Completed b' ts ->
  match side o with
  | Buy => Forall (fun t => f64_gt (tr_price t) (price o) = false) ts
  | Sell => Forall (fun t => f64_lt (tr_price t) (price o) = false) ts
  end.
Proof.
  unfold add_order, match_bid, match_ask; destruct (side o).
  - destruct (match_bid_loop _ (asks b) o) as [m o' tr| |] eqn:Hl; try discriminate.
    intros H; injection H; intros; subst; exact (proj2 (proj2 (match_bid_loop_exit _ _ _ _ _ _ Hl))).
  - destruct (match_ask_loop _ (bids b) o) as [m o' tr| |] eqn:Hl; try discriminate.
    intros H; injection H; intros; subst; exact (proj2 (proj2 (match_ask_loop_exit _ _ _ _ _ _ Hl))).
Qed.

(** An order that is not completely filled stops only because the opposite
    side no longer crosses it: the ask side is then empty or its best price
    is above the buy's price ([>] on [f64]), the bid side empty or its best
    price below the sell's price. *)
Theorem remainder_not_marketable b o b' ts :
  add_order b o = Completed b' ts -> (traded_total ts < quantity o)%N ->
  match side o with
  | Buy => bid_stopped (asks b') (price o)
  | Sell => ask_stopped (bids b') (price o)
  end.
Proof.
  unfold add_order, match_bid, match_ask; destruct (side o).
  - destruct (match_bid_loop _ (asks b) o) as [m o' tr| |] eqn:Hl; try discriminate.
    intros H Hlt; injection H; intros; subst; simpl.
    destruct (match_bid_loop_conserve _ _ _ _ _ _ Hl) as (_ & Hq & _).
    destruct (match_bid_loop_exit _ _ _ _ _ _ Hl) as (_ & [Hz|Hs] & _); [lia | exact Hs].
  - destruct (match_ask_loop _ (bids b) o) as [m o' tr| |] eqn:Hl; try discriminate.
    intros H Hlt; injection H; intros; subst; simpl.
    destruct (match_ask_loop_conserve _ _ _ _ _ _ Hl) as (_ & Hq & _).
    destruct (match_ask_loop_exit _ _ _ _ _ _ Hl) as (_ & [Hz|Hs] & _); [lia | exact Hs].
Qed.

(** The unfilled remainder of an order rests on its own side: when the
    order is filled in full its side is unchanged; otherwise a copy of it
    with the remaining quantity [quantity - traded] is appended at the back
    of the level of its price.  No other level of its side changes. *)
Theorem remainder_rests_at_back b o b' ts :
  book_ok b -> add_order b o = Completed b' ts ->
  (traded_total ts = quantity o -> own_side b' o = own_side b o) /\
  ((traded_total ts < quantity o)%N ->
     level_of (own_side b' o) (price o) =
     level_of (own_side b o) (price o) ++ [set_quantity o (quantity o - traded_total ts)%N]) /\
  (forall k, k <> price o -> level_of (own_side b' o) k = level_of (own_side b o) k).
Proof.
  intros (Hbids & Hasks & _); unfold add_order, own_side, match_bid, match_ask.
  destruct (side o).
  - destruct (match_bid_loop _ (asks b) o) as [m o' tr| |] eqn:Hl; try discriminate.
    intros H; injection H; intros; subst; simpl.
    destruct (match_bid_loop_conserve _ _ _ _ _ _ Hl) as (_ & Hq & Hp & _).
    destruct (match_bid_loop_exit _ _ _ _ _ _ Hl) as (Ho & _ & _).
    destruct (N.ltb_spec 0 (quantity o')) as [Hpos|Hpos].
    + split; [intros; lia|]; rewrite Hp; split.
      * intros _; rewrite level_of_push by apply (proj1 Hbids).
        rewrite Ho at 1; replace (quantity o') with (quantity o - traded_total ts)%N by lia.
        reflexivity.
      * intros k Hk; apply level_of_push_other; exact Hk.
    + split; [reflexivity|]; split; [intros; lia | reflexivity].
  - destruct (match_ask_loop _ (bids b) o) as [m o' tr| |] eqn:Hl; try discriminate.
    intros H; injection H; intros; subst; simpl.
    destruct (match_ask_loop_conserve _ _ _ _ _ _ Hl) as (_ & Hq & Hp & _).
    destruct (match_ask_loop_exit _ _ _ _ _ _ Hl) as (Ho & _ & _).
    destruct (N.ltb_spec 0 (quantity o')) as [Hpos|Hpos].
    + split; [intros; lia|]; rewrite Hp; split.
      * intros _; rewrite level_of_push by apply (proj1 Hasks).
        rewrite Ho at 1; replace (quantity o') with (quantity o - traded_total ts)%N by lia.
        reflexivity.
      * intros k Hk; apply level_of_push_other; exact Hk.
    + split; [reflexivity|]; split; [intros; lia | reflexivity].
Qed.

(** Matching consumes the opposite side strictly in price-time priority:
    listing its resting orders in the order the loop meets them (asks from
    the lowest level, bids from the highest, each queue front first), the
    trades take a prefix of them in full, in that order and at their own
    quantity and price, and at most one more order in part; the resting
    orders left afterwards are exactly the rest of the list, with that one
    order reduced. *)
Theorem add_order_consumes_in_priority b o b' ts :
  book_ok b -> add_order b o = Completed b' ts ->
  match side o with
  | Buy => consumed (side_orders (asks b)) (side_orders (asks b')) ts
  | Sell => consumed (bid_priority (bids b)) (bid_priority (bids b')) ts
  end.
Proof.
  intros (Hbids & Hasks & _); unfold add_order, match_bid, match_ask; destruct (side o).
  - destruct (match_bid_loop _ (asks b) o) as [m o' tr| |] eqn:Hl; try discriminate.
    intros H; injection H; intros; subst; simpl; eapply match_bid_loop_consumed; eauto.
  - destruct (match_ask_loop _ (bids b) o) as [m o' tr| |] eqn:Hl; try discriminate.
    intros H; injection H; intros; subst; simpl; eapply match_ask_loop_consumed; eauto.
Qed.

(** A call of [add_order] executes at most as many trades as there are
    resting orders on the opposite side. *)
Theorem trades_bounded_by_resting b o b' ts :
  book_ok b -> add_order b o = Completed b' ts ->
  (length ts <= count_orders (opposite_side b o))%nat.
Proof.
  intros (Hbids & Hasks & _); unfold add_order, opposite_side, match_bid, match_ask.
  destruct (side o).
  - destruct (match_bid_loop _ (asks b) o) as [m o' tr| |] eqn:Hl; try discriminate.
    intros H; injection H; intros; subst.
    rewrite count_orders_side_orders; eapply consumed_length, match_bid_loop_consumed; eauto.
  - destruct (match_ask_loop _ (bids b) o) as [m o' tr| |] eqn:Hl; try discriminate.
    intros H; injection H; intros; subst.
    rewrite count_orders_bid_priority; eapply consumed_length, match_ask_loop_consumed; eauto.
Qed.

(** A buy walks up the ask side and a sell down the bid side: the prices
    of the successive trades of one call never decrease for a buy and never
    increase for a sell (in the order of [OrderedFloat]), and each is the key
    of a level of the opposite side. *)
Theorem trade_prices_monotone b o b' ts :
  book_ok b -> add_order b o = Completed b' ts ->
  Forall (fun t => In (tr_price t) (keys (opposite_side b o))) ts /\
  match side o with
  | Buy => Sorted (fun x y => of_cmp x y <> Gt) (map tr_price ts)
  | Sell => Sorted (fun x y => of_cmp x y <> Lt) (map tr_price ts)
  end.
Proof.
  intros (Hbids & Hasks & _); unfold add_order, opposite_side, match_bid, match_ask.
  destruct (side o).
  - destruct (match_bid_loop _ (asks b) o) as [m o' tr| |] eqn:Hl; try discriminate.
    intros H; injection H; intros; subst; eapply match_bid_loop_prices; eauto.
  - destruct (match_ask_loop _ (bids b) o) as [m o' tr| |] eqn:Hl; try discriminate.
    intros H; injection H; intros; subst; eapply match_ask_loop_prices; eauto.
Qed.

(** An order priced NaN is never stopped by the price test ([>] and [<]
    are false on NaN): it trades until it is filled in full or the opposite
    side is empty. *)
Theorem nan_price_sweeps b o b' ts :
  price o = NaN -> add_order b o = Completed b' ts ->
  traded_total ts = quantity o \/ opposite_side b' o = [].
Proof.
  intros Hn; unfold add_order, opposite_side, match_bid, match_ask; destruct (side o) eqn:Hs.
  - destruct (match_bid_loop _ (asks b) o) as [m o' tr| |] eqn:Hl; try discriminate.
    intros H; injection H; intros; subst; simpl.
    destruct (match_bid_loop_conserve _ _ _ _ _ _ Hl) as (_ & Hq & _).
    destruct (match_bid_loop_exit _ _ _ _ _ _ Hl) as (_ & [Hz|Hst] & _); [left; lia|].
    right; rewrite Hn in Hst; destruct m as [|[k q] r]; [reflexivity|].
    simpl in Hst; rewrite f64_gt_nan in Hst; discriminate.
  - destruct (match_ask_loop _ (bids b) o) as [m o' tr| |] eqn:Hl; try discriminate.
    intros H; injection H; intros; subst; simpl.
    destruct (match_ask_loop_conserve _ _ _ _ _ _ Hl) as (_ & Hq & _).
    destruct (match_ask_loop_exit _ _ _ _ _ _ Hl) as (_ & [Hz|Hst] & _); [left; lia|].
    right; rewrite Hn in Hst; unfold ask_stopped in Hst.
    destruct (last_entry m) as [[pre [k q]]|] eqn:Hle.
    + unfold f64_lt in Hst; simpl in Hst; discriminate.
    + apply last_entry_none; exact Hle.
Qed.

(** On the empty book, an order of positive quantity rests in full, and an
    opposite order of the same price and quantity then fills against it
    completely, in one trade at that price, leaving the book empty again
    (for every price, NaN included). *)
Theorem empty_book_round_trip i1 i2 p q :
  (0 < q)%N ->
  add_order new_book (mkOrder i1 p q Buy) =
    Completed (mkBook [(p, [mkOrder i1 p q Buy])] []) [] /\
  add_order (mkBook [(p, [mkOrder i1 p q Buy])] []) (mkOrder i2 p q Sell) =
    Completed new_book [mkTrade p q i1 i2] /\
  add_order new_book (mkOrder i1 p q Sell) =
    Completed (mkBook [] [(p, [mkOrder i1 p q Sell])]) [] /\
  add_order (mkBook [] [(p, [mkOrder i1 p q Sell])]) (mkOrder i2 p q Buy) =
    Completed new_book [mkTrade p q i1 i2].
Proof.
  intros Hq; pose proof (proj2 (N.ltb_lt _ _) Hq) as Hqb.
  unfold add_order, match_bid, match_ask, loop_fuel, new_book;
    cbn [side quantity price bids asks].
  cbn [count_orders fold_right length snd].
  replace (N.to_nat q + (1 + 0))%nat with (S (S (N.to_nat q - 1))) by lia.
  cbn [match_bid_loop match_ask_loop quantity]; rewrite !Hqb.
  unfold match_bid_iter, match_ask_iter, f64_lt; cbn [last_entry price quantity].
  rewrite !f64_gt_irrefl, !N.min_id; unfold u64_sub; rewrite !N.leb_refl, !N.sub_diag.
  cbn [N.eqb set_quantity match_bid_loop match_ask_loop quantity N.ltb N.leb].
  rewrite !Hqb; repeat split.
Qed.

(** [add_order] keeps the book well formed on any book, not only on those
    built from the empty book: if both sides have strictly increasing
    distinct keys, non-empty levels whose orders carry the level's price and
    a positive quantity, and every bid key is below every ask key, then
    [add_order] completes and the new book has all these properties again;
    the only key it can add to either side is the order's price. *)
Theorem add_order_keeps_book_ok b o :
  book_ok b ->
  exists b' ts,
    add_order b o = Completed b' ts /\ book_ok b' /\
    incl (keys (bids b')) (price o :: keys (bids b)) /\
    incl (keys (asks b')) (price o :: keys (asks b)).
Proof.
  intros Hok; destruct (add_order_completes b o Hok) as (b' & ts & Ha).
  exists b', ts; split; [exact Ha | exact (add_order_ok _ _ _ _ Hok Ha)].
Qed.


(** ** Witnesses *)

Lemma trades_within_limit_witness :
  add_order (mkBook [(Num 95, [mkOrder 9 (Num 95) 4 Buy])]
            [(Num 100, [mkOrder 1 (Num 100) 5 Sell; mkOrder 2 (Num 100) 3 Sell]);
             (Num 105, [mkOrder 4 (Num 105) 6 Sell])])
            (mkOrder 7 (Num 102) 10 Buy) =
  Completed (mkBook [(Num 95, [mkOrder 9 (Num 95) 4 Buy]); (Num 102, [mkOrder 7 (Num 102) 2 Buy])]
            [(Num 105, [mkOrder 4 (Num 105) 6 Sell])])
            [mkTrade (Num 100) 5 1 7; mkTrade (Num 100) 3 2 7] /\
  Forall (fun t => f64_gt (tr_price t) (Num 102) = false) [mkTrade (Num 100) 5 1 7; mkTrade (Num 100) 3 2 7].
Proof.
  split; [reflexivity|].
  exact (trades_within_limit (mkBook [(Num 95, [mkOrder 9 (Num 95) 4 Buy])]
            [(Num 100, [mkOrder 1 (Num 100) 5 Sell; mkOrder 2 (Num 100) 3 Sell]);
             (Num 105, [mkOrder 4 (Num 105) 6 Sell])])
           (mkOrder 7 (Num 102) 10 Buy) (mkBook [(Num 95, [mkOrder 9 (Num 95) 4 Buy]); (Num 102, [mkOrder 7 (Num 102) 2 Buy])]
            [(Num 105, [mkOrder 4 (Num 105) 6 Sell])])
           [mkTrade (Num 100) 5 1 7; mkTrade (Num 100) 3 2 7] eq_refl).
Defined.

Lemma remainder_not_marketable_witness :
  add_order (mkBook [(Num 95, [mkOrder 9 (Num 95) 4 Buy])]
            [(Num 100, [mkOrder 1 (Num 100) 5 Sell; mkOrder 2 (Num 100) 3 Sell]);
             (Num 105, [mkOrder 4 (Num 105) 6 Sell])])
            (mkOrder 7 (Num 102) 10 Buy) =
  Completed (mkBook [(Num 95, [mkOrder 9 (Num 95) 4 Buy]); (Num 102, [mkOrder 7 (Num 102) 2 Buy])]
            [(Num 105, [mkOrder 4 (Num 105) 6 Sell])])
            [mkTrade (Num 100) 5 1 7; mkTrade (Num 100) 3 2 7] /\
  (traded_total [mkTrade (Num 100) 5 1 7; mkTrade (Num 100) 3 2 7] < 10)%N /\
  bid_stopped [(Num 105, [mkOrder 4 (Num 105) 6 Sell])] (Num 102).
Proof.
  split; [reflexivity|]; split; [reflexivity|].
  exact (remainder_not_marketable (mkBook [(Num 95, [mkOrder 9 (Num 95) 4 Buy])]
            [(Num 100, [mkOrder 1 (Num 100) 5 Sell; mkOrder 2 (Num 100) 3 Sell]);
             (Num 105, [mkOrder 4 (Num 105) 6 Sell])])
           (mkOrder 7 (Num 102) 10 Buy) (mkBook [(Num 95, [mkOrder 9 (Num 95) 4 Buy]); (Num 102, [mkOrder 7 (Num 102) 2 Buy])]
            [(Num 105, [mkOrder 4 (Num 105) 6 Sell])])
           [mkTrade (Num 100) 5 1 7; mkTrade (Num 100) 3 2 7] eq_refl eq_refl).
Defined.

Lemma remainder_rests_at_back_witness :
  book_ok (mkBook [(Num 95, [mkOrder 9 (Num 95) 4 Buy])]
            [(Num 100, [mkOrder 1 (Num 100) 5 Sell; mkOrder 2 (Num 100) 3 Sell]);
             (Num 105, [mkOrder 4 (Num 105) 6 Sell])]) /\
  add_order (mkBook [(Num 95, [mkOrder 9 (Num 95) 4 Buy])]
            [(Num 100, [mkOrder 1 (Num 100) 5 Sell; mkOrder 2 (Num 100) 3 Sell]);
             (Num 105, [mkOrder 4 (Num 105) 6 Sell])])
            (mkOrder 7 (Num 102) 10 Buy) =
  Completed (mkBook [(Num 95, [mkOrder 9 (Num 95) 4 Buy]); (Num 102, [mkOrder 7 (Num 102) 2 Buy])]
            [(Num 105, [mkOrder 4 (Num 105) 6 Sell])])
            [mkTrade (Num 100) 5 1 7; mkTrade (Num 100) 3 2 7] /\
  level_of (bids (mkBook [(Num 95, [mkOrder 9 (Num 95) 4 Buy]); (Num 102, [mkOrder 7 (Num 102) 2 Buy])]
            [(Num 105, [mkOrder 4 (Num 105) 6 Sell])])) (Num 102) =
  [mkOrder 7 (Num 102) 2 Buy] /\
  level_of (bids (mkBook [(Num 95, [mkOrder 9 (Num 95) 4 Buy]); (Num 102, [mkOrder 7 (Num 102) 2 Buy])]
            [(Num 105, [mkOrder 4 (Num 105) 6 Sell])])) (Num 95) =
  [mkOrder 9 (Num 95) 4 Buy].
Proof.
  assert (Hok : book_ok (mkBook [(Num 95, [mkOrder 9 (Num 95) 4 Buy])]
            [(Num 100, [mkOrder 1 (Num 100) 5 Sell; mkOrder 2 (Num 100) 3 Sell]);
             (Num 105, [mkOrder 4 (Num 105) 6 Sell])])) by book_ok_tac.
  pose proof (remainder_rests_at_back (mkBook [(Num 95, [mkOrder 9 (Num 95) 4 Buy])]
            [(Num 100, [mkOrder 1 (Num 100) 5 Sell; mkOrder 2 (Num 100) 3 Sell]);
             (Num 105, [mkOrder 4 (Num 105) 6 Sell])])
                (mkOrder 7 (Num 102) 10 Buy) (mkBook [(Num 95, [mkOrder 9 (Num 95) 4 Buy]); (Num 102, [mkOrder 7 (Num 102) 2 Buy])]
            [(Num 105, [mkOrder 4 (Num 105) 6 Sell])])
                [mkTrade (Num 100) 5 1 7; mkTrade (Num 100) 3 2 7] Hok eq_refl) as (_ & H2 & H3).
  split; [exact Hok|]; split; [reflexivity|]; split.
  - exact (H2 eq_refl).
  - exact (H3 (Num 95) ltac:(discriminate)).
Defined.

Lemma add_order_consumes_in_priority_witness :
  book_ok (mkBook [(Num 95, [mkOrder 9 (Num 95) 4 Buy])]
            [(Num 100, [mkOrder 1 (Num 100) 5 Sell; mkOrder 2 (Num 100) 3 Sell]);
             (Num 105, [mkOrder 4 (Num 105) 6 Sell])]) /\
  add_order (mkBook [(Num 95, [mkOrder 9 (Num 95) 4 Buy])]
            [(Num 100, [mkOrder 1 (Num 100) 5 Sell; mkOrder 2 (Num 100) 3 Sell]);
             (Num 105, [mkOrder 4 (Num 105) 6 Sell])])
            (mkOrder 7 (Num 105) 10 Buy) =
  Completed (mkBook [(Num 95, [mkOrder 9 (Num 95) 4 Buy])] [(Num 105, [mkOrder 4 (Num 105) 4 Sell])])
            [mkTrade (Num 100) 5 1 7; mkTrade (Num 100) 3 2 7; mkTrade (Num 105) 2 4 7] /\
  consumed (side_orders (asks (mkBook [(Num 95, [mkOrder 9 (Num 95) 4 Buy])]
            [(Num 100, [mkOrder 1 (Num 100) 5 Sell; mkOrder 2 (Num 100) 3 Sell]);
             (Num 105, [mkOrder 4 (Num 105) 6 Sell])])))
           (side_orders (asks (mkBook [(Num 95, [mkOrder 9 (Num 95) 4 Buy])] [(Num 105, [mkOrder 4 (Num 105) 4 Sell])])))
           [mkTrade (Num 100) 5 1 7; mkTrade (Num 100) 3 2 7; mkTrade (Num 105) 2 4 7].
Proof.
  assert (Hok : book_ok (mkBook [(Num 95, [mkOrder 9 (Num 95) 4 Buy])]
            [(Num 100, [mkOrder 1 (Num 100) 5 Sell; mkOrder 2 (Num 100) 3 Sell]);
             (Num 105, [mkOrder 4 (Num 105) 6 Sell])])) by book_ok_tac.
  split; [exact Hok|]; split; [reflexivity|].
  exact (add_order_consumes_in_priority (mkBook [(Num 95, [mkOrder 9 (Num 95) 4 Buy])]
            [(Num 100, [mkOrder 1 (Num 100) 5 Sell; mkOrder 2 (Num 100) 3 Sell]);
             (Num 105, [mkOrder 4 (Num 105) 6 Sell])])
           (mkOrder 7 (Num 105) 10 Buy) (mkBook [(Num 95, [mkOrder 9 (Num 95) 4 Buy])] [(Num 105, [mkOrder 4 (Num 105) 4 Sell])])
           [mkTrade (Num 100) 5 1 7; mkTrade (Num 100) 3 2 7; mkTrade (Num 105) 2 4 7] Hok eq_refl).
Defined.

Lemma trades_bounded_by_resting_witness :
  book_ok (mkBook [(Num 95, [mkOrder 9 (Num 95) 4 Buy])]
            [(Num 100, [mkOrder 1 (Num 100) 5 Sell; mkOrder 2 (Num 100) 3 Sell]);
             (Num 105, [mkOrder 4 (Num 105) 6 Sell])]) /\
  add_order (mkBook [(Num 95, [mkOrder 9 (Num 95) 4 Buy])]
            [(Num 100, [mkOrder 1 (Num 100) 5 Sell; mkOrder 2 (Num 100) 3 Sell]);
             (Num 105, [mkOrder 4 (Num 105) 6 Sell])])
            (mkOrder 7 (Num 105) 10 Buy) =
  Completed (mkBook [(Num 95, [mkOrder 9 (Num 95) 4 Buy])] [(Num 105, [mkOrder 4 (Num 105) 4 Sell])])
            [mkTrade (Num 100) 5 1 7; mkTrade (Num 100) 3 2 7; mkTrade (Num 105) 2 4 7] /\
  (length [mkTrade (Num 100) 5 1 7; mkTrade (Num 100) 3 2 7; mkTrade (Num 105) 2 4 7] <=
   count_orders (asks (mkBook [(Num 95, [mkOrder 9 (Num 95) 4 Buy])]
            [(Num 100, [mkOrder 1 (Num 100) 5 Sell; mkOrder 2 (Num 100) 3 Sell]);
             (Num 105, [mkOrder 4 (Num 105) 6 Sell])])))%nat.
Proof.
  assert (Hok : book_ok (mkBook [(Num 95, [mkOrder 9 (Num 95) 4 Buy])]
            [(Num 100, [mkOrder 1 (Num 100) 5 Sell; mkOrder 2 (Num 100) 3 Sell]);
             (Num 105, [mkOrder 4 (Num 105) 6 Sell])])) by book_ok_tac.
  split; [exact Hok|]; split; [reflexivity|].
  exact (trades_bounded_by_resting (mkBook [(Num 95, [mkOrder 9 (Num 95) 4 Buy])]
            [(Num 100, [mkOrder 1 (Num 100) 5 Sell; mkOrder 2 (Num 100) 3 Sell]);
             (Num 105, [mkOrder 4 (Num 105) 6 Sell])])
           (mkOrder 7 (Num 105) 10 Buy) (mkBook [(Num 95, [mkOrder 9 (Num 95) 4 Buy])] [(Num 105, [mkOrder 4 (Num 105) 4 Sell])])
           [mkTrade (Num 100) 5 1 7; mkTrade (Num 100) 3 2 7; mkTrade (Num 105) 2 4 7] Hok eq_refl).
Defined.

Lemma trade_prices_monotone_witness :
  book_ok (mkBook [(Num 95, [mkOrder 9 (Num 95) 4 Buy])]
            [(Num 100, [mkOrder 1 (Num 100) 5 Sell; mkOrder 2 (Num 100) 3 Sell]);
             (Num 105, [mkOrder 4 (Num 105) 6 Sell])]) /\
  add_order (mkBook [(Num 95, [mkOrder 9 (Num 95) 4 Buy])]
            [(Num 100, [mkOrder 1 (Num 100) 5 Sell; mkOrder 2 (Num 100) 3 Sell]);
             (Num 105, [mkOrder 4 (Num 105) 6 Sell])])
            (mkOrder 7 (Num 105) 10 Buy) =
  Completed (mkBook [(Num 95, [mkOrder 9 (Num 95) 4 Buy])] [(Num 105, [mkOrder 4 (Num 105) 4 Sell])])
            [mkTrade (Num 100) 5 1 7; mkTrade (Num 100) 3 2 7; mkTrade (Num 105) 2 4 7] /\
  Sorted (fun x y => of_cmp x y <> Gt) [Num 100; Num 100; Num 105].
Proof.
  assert (Hok : book_ok (mkBook [(Num 95, [mkOrder 9 (Num 95) 4 Buy])]
            [(Num 100, [mkOrder 1 (Num 100) 5 Sell; mkOrder 2 (Num 100) 3 Sell]);
             (Num 105, [mkOrder 4 (Num 105) 6 Sell])])) by book_ok_tac.
  split; [exact Hok|]; split; [reflexivity|].
  exact (proj2 (trade_prices_monotone (mkBook [(Num 95, [mkOrder 9 (Num 95) 4 Buy])]
            [(Num 100, [mkOrder 1 (Num 100) 5 Sell; mkOrder 2 (Num 100) 3 Sell]);
             (Num 105, [mkOrder 4 (Num 105) 6 Sell])])
                  (mkOrder 7 (Num 105) 10 Buy) (mkBook [(Num 95, [mkOrder 9 (Num 95) 4 Buy])] [(Num 105, [mkOrder 4 (Num 105) 4 Sell])])
                  [mkTrade (Num 100) 5 1 7; mkTrade (Num 100) 3 2 7; mkTrade (Num 105) 2 4 7] Hok eq_refl)).
Defined.

Lemma nan_price_sweeps_witness :
  price (mkOrder 7 NaN 20 Buy) = NaN /\
  add_order (mkBook [(Num 95, [mkOrder 9 (Num 95) 4 Buy])]
            [(Num 100, [mkOrder 1 (Num 100) 5 Sell; mkOrder 2 (Num 100) 3 Sell]);
             (Num 105, [mkOrder 4 (Num 105) 6 Sell])])
            (mkOrder 7 NaN 20 Buy) =
  Completed (mkBook [(Num 95, [mkOrder 9 (Num 95) 4 Buy]); (NaN, [mkOrder 7 NaN 6 Buy])] [])
            [mkTrade (Num 100) 5 1 7; mkTrade (Num 100) 3 2 7; mkTrade (Num 105) 6 4 7] /\
  (traded_total [mkTrade (Num 100) 5 1 7; mkTrade (Num 100) 3 2 7; mkTrade (Num 105) 6 4 7] = 20%N \/
   asks (mkBook [(Num 95, [mkOrder 9 (Num 95) 4 Buy]); (NaN, [mkOrder 7 NaN 6 Buy])] []) = []).
Proof.
  split; [reflexivity|]; split; [reflexivity|].
  exact (nan_price_sweeps (mkBook [(Num 95, [mkOrder 9 (Num 95) 4 Buy])]
            [(Num 100, [mkOrder 1 (Num 100) 5 Sell; mkOrder 2 (Num 100) 3 Sell]);
             (Num 105, [mkOrder 4 (Num 105) 6 Sell])])
           (mkOrder 7 NaN 20 Buy) (mkBook [(Num 95, [mkOrder 9 (Num 95) 4 Buy]); (NaN, [mkOrder 7 NaN 6 Buy])] [])
           [mkTrade (Num 100) 5 1 7; mkTrade (Num 100) 3 2 7; mkTrade (Num 105) 6 4 7] eq_refl eq_refl).
Defined.

Lemma empty_book_round_trip_witness :
  (0 < 10)%N /\
  add_order new_book (mkOrder 1 (Num 150) 10 Buy) =
    Completed (mkBook [(Num 150, [mkOrder 1 (Num 150) 10 Buy])] []) [] /\
  add_order (mkBook [(Num 150, [mkOrder 1 (Num 150) 10 Buy])] []) (mkOrder 2 (Num 150) 10 Sell) =
    Completed new_book [mkTrade (Num 150) 10 1 2] /\
  add_order new_book (mkOrder 1 (Num 150) 10 Sell) =
    Completed (mkBook [] [(Num 150, [mkOrder 1 (Num 150) 10 Sell])]) [] /\
  add_order (mkBook [] [(Num 150, [mkOrder 1 (Num 150) 10 Sell])]) (mkOrder 2 (Num 150) 10 Buy) =
    Completed new_book [mkTrade (Num 150) 10 1 2].
Proof.
  split; [reflexivity|].
  exact (empty_book_round_trip 1 2 (Num 150) 10 eq_refl).
Defined.

Lemma add_order_keeps_book_ok_witness :
  book_ok (mkBook [(Num 95, [mkOrder 9 (Num 95) 4 Buy])]
            [(Num 100, [mkOrder 1 (Num 100) 5 Sell; mkOrder 2 (Num 100) 3 Sell]);
             (Num 105, [mkOrder 4 (Num 105) 6 Sell])]) /\
  exists b' ts,
    add_order (mkBook [(Num 95, [mkOrder 9 (Num 95) 4 Buy])]
            [(Num 100, [mkOrder 1 (Num 100) 5 Sell; mkOrder 2 (Num 100) 3 Sell]);
             (Num 105, [mkOrder 4 (Num 105) 6 Sell])])
              (mkOrder 7 (Num 102) 10 Buy) = Completed b' ts /\
    book_ok b' /\
    incl (keys (bids b')) (Num 102 :: keys (bids (mkBook [(Num 95, [mkOrder 9 (Num 95) 4 Buy])]
            [(Num 100, [mkOrder 1 (Num 100) 5 Sell; mkOrder 2 (Num 100) 3 Sell]);
             (Num 105, [mkOrder 4 (Num 105) 6 Sell])]))) /\
    incl (keys (asks b')) (Num 102 :: keys (asks (mkBook [(Num 95, [mkOrder 9 (Num 95) 4 Buy])]
            [(Num 100, [mkOrder 1 (Num 100) 5 Sell; mkOrder 2 (Num 100) 3 Sell]);
             (Num 105, [mkOrder 4 (Num 105) 6 Sell])]))).
Proof.
  assert (Hok : book_ok (mkBook [(Num 95, [mkOrder 9 (Num 95) 4 Buy])]
            [(Num 100, [mkOrder 1 (Num 100) 5 Sell; mkOrder 2 (Num 100) 3 Sell]);
             (Num 105, [mkOrder 4 (Num 105) 6 Sell])])) by book_ok_tac.
  exact (conj Hok (add_order_keeps_book_ok (mkBook [(Num 95, [mkOrder 9 (Num 95) 4 Buy])]
            [(Num 100, [mkOrder 1 (Num 100) 5 Sell; mkOrder 2 (Num 100) 3 Sell]);
             (Num 105, [mkOrder 4 (Num 105) 6 Sell])])
                     (mkOrder 7 (Num 102) 10 Buy) Hok)).
Defined.

